(** * k-number-utils: BigIntCoercion and stringToBigInt

    A shallow embedding of [bigint-coercion.ts] and [str-to-bigint.ts].

    A [bigint] is a [Z].  A JavaScript string is the list of its UTF-16 code
    units.  A call that can throw returns a [completion].  The built-ins the
    two files call ([BigInt.asIntN], [Number], [String.fromCodePoint],
    [TextEncoder.prototype.encode], ...) are written out in [Module Host]
    after ECMA-262 and the WHATWG Encoding standard. *)

From Stdlib Require Import String Ascii ZArith Zquot List Lia Bool.
Import ListNotations.
Local Open Scope Z_scope.

(** ** Host values *)

Module Host.

(** A string value: its UTF-16 code units, each in [0, 0xFFFF]. *)
Definition js_string := list Z.

Definition code_unit_ok (u : Z) : Prop := 0 <= u < 65536.
Definition js_string_ok (s : js_string) : Prop := Forall code_unit_ok s.

(** A source-level string literal (ASCII only). *)
Definition lit (s : string) : js_string :=
  map (fun a => Z.of_N (N_of_ascii a)) (list_ascii_of_string s).

(** Number values.  [NumInt z] is the integral Number [z]; [NumFraction m k]
    is the non-integral [m / 2^k] with [m] odd. *)
Inductive number : Type :=
| NumInt (z : Z)
| NumFraction (m : Z) (k : positive)
| NumInfinity (negative : bool)
| NumNaN.

Inductive js_error : Type :=
| TypeError (message : js_string)
| RangeError
| SyntaxError.

Inductive completion (A : Type) : Type :=
| Normal (a : A)
| Throw (e : js_error).
Arguments Normal {A} a.
Arguments Throw {A} e.

Definition bind {A B} (c : completion A) (k : A -> completion B) : completion B :=
  match c with
  | Normal a => k a
  | Throw e => Throw e
  end.

Notation "x <- c ;; k" := (bind c (fun x => k))
  (at level 61, c at next level, right associativity).

Definition throws {A} (c : completion A) : Prop := exists e, c = Throw e.
Definition returns {A} (c : completion A) : Prop := exists a, c = Normal a.

(** The values an untyped caller can hand to the library.  An object is kept
    as what [typeof] and [String(...)] observe of it: whether it is callable
    and how its conversion to a string completes. *)
Inductive js_value : Type :=
| VUndefined
| VNull
| VBoolean (b : bool)
| VNumber (n : number)
| VString (s : js_string)
| VSymbol (description : option js_string)
| VBigInt (z : Z)
| VObject (callable : bool) (conversion : completion js_string).

Definition typeof (v : js_value) : string :=
  match v with
  | VUndefined => "undefined"
  | VNull => "object"
  | VBoolean _ => "boolean"
  | VNumber _ => "number"
  | VString _ => "string"
  | VSymbol _ => "symbol"
  | VBigInt _ => "bigint"
  | VObject true _ => "function"
  | VObject false _ => "object"
  end.

(** *** BigInt built-ins *)

(** [BigInt.asUintN(bits, bigint)]: bigint modulo 2^bits. *)
Definition BigInt_asUintN (bits : Z) (bigint : Z) : Z :=
  bigint mod 2 ^ bits.

(** [BigInt.asIntN(bits, bigint)]. *)
Definition BigInt_asIntN (bits : Z) (bigint : Z) : Z :=
  let m := bigint mod 2 ^ bits in
  if 2 ^ (bits - 1) <=? m then m - 2 ^ bits else m.

(** [Number(bigint)]: the Number value for the mathematical value, that is
    the nearest double, ties to even; exact up to 2^53. *)
Definition Number_of_bigint (x : Z) : number :=
  let a := Z.abs x in
  if a <? 2 ^ 53 then NumInt x
  else
    let e := Z.log2 a - 52 in
    let q := Z.shiftr a e in
    let r := Z.land a (Z.ones e) in
    let half := Z.shiftl 1 (e - 1) in
    let q' := if (half <? r) || ((r =? half) && Z.odd q) then q + 1 else q in
    let m := Z.shiftl q' e in
    if 2 ^ 1024 <=? m then NumInfinity (x <? 0) else NumInt (Z.sgn x * m).

(** [x % y] on BigInts. *)
Definition BigInt_remainder (x y : Z) : completion Z :=
  if y =? 0 then Throw RangeError else Normal (Z.rem x y).


(** *** Number built-ins used on code points and radices *)

(** Truncation toward zero of a finite Number; [None] for NaN and the
    infinities. *)
Definition truncate (n : number) : option Z :=
  match n with
  | NumInt z => Some z
  | NumFraction m k => Some (Z.quot m (2 ^ Z.pos k))
  | NumInfinity _ => None
  | NumNaN => None
  end.

Definition ToInt32 (n : number) : Z :=
  match truncate n with
  | Some z => let m := z mod 2 ^ 32 in if 2 ^ 31 <=? m then m - 2 ^ 32 else m
  | None => 0
  end.

Definition ToUint16 (n : number) : Z :=
  match truncate n with
  | Some z => z mod 2 ^ 16
  | None => 0
  end.

(** [x & y] on Numbers. *)
Definition Number_bitwiseAND (x y : number) : number :=
  NumInt (Z.land (ToInt32 x) (ToInt32 y)).

(** [x > y] on Numbers: false as soon as one side is NaN. *)
Definition Number_greaterThan (x y : number) : bool :=
  match x, y with
  | NumNaN, _ | _, NumNaN => false
  | NumInfinity nx, NumInfinity ny => negb nx && ny
  | NumInfinity nx, _ => negb nx
  | _, NumInfinity ny => ny
  | NumInt a, NumInt b => b <? a
  | NumInt a, NumFraction m k => m <? a * 2 ^ Z.pos k
  | NumFraction m k, NumInt b => b * 2 ^ Z.pos k <? m
  | NumFraction m k, NumFraction m' k' => m' * 2 ^ Z.pos k <? m * 2 ^ Z.pos k'
  end.

(** *** String built-ins *)

(** [String.fromCharCode(n)]. *)
Definition String_fromCharCode (n : number) : js_string := [ToUint16 n].

(** UTF16EncodeCodePoint. *)
Definition UTF16EncodeCodePoint (cp : Z) : js_string :=
  if cp <=? 65535 then [cp]
  else [ (cp - 65536) / 1024 + 55296 ; (cp - 65536) mod 1024 + 56320 ].

(** [String.fromCodePoint(n)]: a RangeError unless [n] is an integer in
    [0, 0x10FFFF]. *)
Definition String_fromCodePoint (n : number) : completion js_string :=
  match n with
  | NumInt cp =>
      if (cp <? 0) || (1114111 <? cp) then Throw RangeError
      else Normal (UTF16EncodeCodePoint cp)
  | _ => Throw RangeError
  end.

Definition is_lead_surrogate (u : Z) : bool := (55296 <=? u) && (u <=? 56319).
Definition is_trail_surrogate (u : Z) : bool := (56320 <=? u) && (u <=? 57343).

(** [s.codePointAt(0)]. *)
Definition codePointAt0 (s : js_string) : option Z :=
  match s with
  | [] => None
  | first :: rest =>
      if is_lead_surrogate first then
        match rest with
        | second :: _ =>
            if is_trail_surrogate second
            then Some ((first - 55296) * 1024 + (second - 56320) + 65536)
            else Some first
        | [] => Some first
        end
      else Some first
  end.

(** Digits of radix conversions: 0-9 then a-z. *)
Definition digit_char (d : Z) : Z := if d <? 10 then 48 + d else 97 + (d - 10).

Fixpoint digits_of (fuel : nat) (radix n : Z) (acc : js_string) : js_string :=
  match fuel with
  | O => acc
  | S fuel' =>
      let acc' := digit_char (n mod radix) :: acc in
      if n / radix =? 0 then acc' else digits_of fuel' radix (n / radix) acc'
  end.

(** The digits of a non-negative integer, most significant first. *)
Definition magnitude_digits (radix n : Z) : js_string :=
  digits_of (S (Z.to_nat (Z.log2 n))) radix n [].

(** BigInt::toString(x, radix) and Number::toString on an integral Number:
    a minus sign for negatives, then the digits of the magnitude. *)
Definition integer_toString (x radix : Z) : js_string :=
  if x <? 0 then 45 :: magnitude_digits radix (- x) else magnitude_digits radix x.

Definition radix_in_range (r : Z) : bool := (2 <=? r) && (r <=? 36).

(** [BigInt.prototype.toString(radix)]. *)
Definition BigInt_prototype_toString (x : Z) (radix : option number)
  : completion js_string :=
  match radix with
  | None => Normal (integer_toString x 10)
  | Some n =>
      match truncate n with
      | Some r =>
          if radix_in_range r then Normal (integer_toString x r)
          else Throw RangeError
      | None => Throw RangeError  (* NaN converts to 0, the infinities to themselves *)
      end
  end.

(** [byte.toString(16)] for an element of a Uint8Array. *)
Definition byte_toString16 (byte : Z) : js_string := integer_toString byte 16.

(** [s.padStart(maxLength, fillString)]. *)
Definition padStart (s : js_string) (maxLength : nat) (fillString : js_string)
  : js_string :=
  let fillLen := (maxLength - length s)%nat in
  firstn fillLen (concat (repeat fillString fillLen)) ++ s.

(** [parts.join("")] with the empty separator. *)
Definition join_empty (parts : list js_string) : js_string := concat parts.

(** *** StringToBigInt *)

Definition digit_value (u : Z) : option Z :=
  if (48 <=? u) && (u <=? 57) then Some (u - 48)
  else if (97 <=? u) && (u <=? 122) then Some (u - 97 + 10)
  else if (65 <=? u) && (u <=? 90) then Some (u - 65 + 10)
  else None.

Fixpoint parse_digits (radix : Z) (s : js_string) (acc : Z) : option Z :=
  match s with
  | [] => Some acc
  | u :: rest =>
      match digit_value u with
      | Some d => if d <? radix then parse_digits radix rest (acc * radix + d) else None
      | None => None
      end
  end.

Definition parse_nonempty (radix : Z) (s : js_string) : option Z :=
  match s with
  | [] => None
  | _ => parse_digits radix s 0
  end.

(** WhiteSpace and LineTerminator code units. *)
Definition is_white_space (u : Z) : bool :=
  existsb (Z.eqb u)
    [9; 10; 11; 12; 13; 32; 160; 5760; 8192; 8193; 8194; 8195; 8196; 8197;
     8198; 8199; 8200; 8201; 8202; 8232; 8233; 8239; 8287; 12288; 65279].

Fixpoint trim_start (s : js_string) : js_string :=
  match s with
  | u :: rest => if is_white_space u then trim_start rest else s
  | [] => []
  end.

Definition trim_end (s : js_string) : js_string :=
  fold_right (fun u kept =>
                match kept with
                | [] => if is_white_space u then [] else [u]
                | _ => u :: kept
                end) [] s.

(** StringToBigInt: [None] is the spec's undefined (not a StringNumericLiteral). *)
Definition StringToBigInt (s : js_string) : option Z :=
  match trim_end (trim_start s) with
  | [] => Some 0
  | 48 :: 120 :: ds | 48 :: 88 :: ds => parse_nonempty 16 ds
  | 48 :: 111 :: ds | 48 :: 79 :: ds => parse_nonempty 8 ds
  | 48 :: 98 :: ds | 48 :: 66 :: ds => parse_nonempty 2 ds
  | 43 :: ds => parse_nonempty 10 ds
  | 45 :: ds => option_map Z.opp (parse_nonempty 10 ds)
  | ds => parse_nonempty 10 ds
  end.

(** [BigInt(string)]. *)
Definition BigInt_of_string (s : js_string) : completion Z :=
  match StringToBigInt s with
  | Some n => Normal n
  | None => Throw SyntaxError
  end.

(** *** TextEncoder *)

(** Conversion of a string to scalar values (USVString): a surrogate pair is
    one scalar, an unpaired surrogate becomes U+FFFD. *)
Fixpoint to_scalar_values (s : js_string) : list Z :=
  match s with
  | [] => []
  | u :: rest =>
      if is_lead_surrogate u then
        match rest with
        | t :: rest' =>
            if is_trail_surrogate t
            then (65536 + (u - 55296) * 1024 + (t - 56320)) :: to_scalar_values rest'
            else 65533 :: to_scalar_values rest
        | [] => [65533]
        end
      else if is_trail_surrogate u then 65533 :: to_scalar_values rest
      else u :: to_scalar_values rest
  end.

(** The UTF-8 encoder's handler for one scalar value. *)
Definition continuation_bytes (cp : Z) (count : nat) : list Z :=
  map (fun i => Z.lor 128 (Z.land (Z.shiftr cp (6 * Z.of_nat i)) 63))
      (rev (seq 0 count)).

Definition utf8_encode_scalar (cp : Z) : list Z :=
  if cp <=? 127 then [cp]
  else
    let '(count, offset) :=
      if cp <=? 2047 then (1%nat, 192)
      else if cp <=? 65535 then (2%nat, 224)
      else (3%nat, 240) in
    (Z.shiftr cp (6 * Z.of_nat count) + offset) :: continuation_bytes cp count.

(** UTF-8 encode: the UTF-8 byte sequence of a string. *)
Definition utf8_encode (input : js_string) : list Z :=
  flat_map utf8_encode_scalar (to_scalar_values input).

(** An instance of the built-in TextEncoder class itself (not of a subclass).
    It has no state besides its identity; its [encoding] is always utf-8. *)
Record TextEncoder : Type := { instance_id : nat }.

Definition new_TextEncoder : TextEncoder := {| instance_id := 0 |}.

(** [encoder.encode(input)] of the built-in class: the bytes of the
    Uint8Array, the result of running UTF-8 encode on the input. *)
Definition TextEncoder_encode (encoder : TextEncoder) (input : js_string) : list Z :=
  utf8_encode input.

(** *** String(value) *)

(** Number::toString(x, 10) is taken from the host. *)
Class HostNumberToString : Type :=
  Number_toString : number -> js_string.

Definition String_of `{HostNumberToString} (v : js_value) : completion js_string :=
  match v with
  | VUndefined => Normal (lit "undefined")
  | VNull => Normal (lit "null")
  | VBoolean b => Normal (if b then lit "true" else lit "false")
  | VNumber n => Normal (Number_toString n)
  | VString s => Normal s
  | VSymbol d =>
      Normal (lit "Symbol(" ++ match d with Some t => t | None => [] end ++ lit ")")
  | VBigInt z => Normal (integer_toString z 10)
  | VObject _ conversion => conversion
  end.

End Host.
Import Host.

(** ** bigint-coercion.ts *)

Record BigIntCoercion : Type := { value : Z }.

Section Conversions.
Variable this : BigIntCoercion.

Definition toBigInt : Z := value this.

Definition toInt8 : number := Number_of_bigint (BigInt_asIntN 8 (value this)).
Definition toUint8 : number := Number_of_bigint (BigInt_asUintN 8 (value this)).
Definition toInt16 : number := Number_of_bigint (BigInt_asIntN 16 (value this)).
Definition toUint16 : number := Number_of_bigint (BigInt_asUintN 16 (value this)).
Definition toInt32 : number := Number_of_bigint (BigInt_asIntN 32 (value this)).
Definition toUint32 : number := Number_of_bigint (BigInt_asUintN 32 (value this)).

Definition toAbsInt32 : number :=
  let abs := if value this <? 0 then - value this else value this in
  Number_of_bigint (BigInt_asUintN 31 abs).

Definition toInt64 : number := Number_of_bigint (BigInt_asIntN 64 (value this)).
Definition toUint64 : number := Number_of_bigint (BigInt_asUintN 64 (value this)).
Definition toBigInt64 : Z := BigInt_asIntN 64 (value this).
Definition toBigUint64 : Z := BigInt_asUintN 64 (value this).

Definition toChar : js_string :=
  let codePoint := toUint16 in
  String_fromCharCode codePoint.

Definition toCodePoint : completion js_string :=
  let codePoint := Number_of_bigint (BigInt_asUintN 21 (value this)) in
  if Number_greaterThan codePoint (NumInt 1114111)
  then String_fromCodePoint (Number_bitwiseAND codePoint (NumInt 1114111))
  else String_fromCodePoint codePoint.

Definition toNumber : number := Number_of_bigint (value this).

(** [prefix = true] and [radix = 10] are default parameters: [None] is an
    omitted argument. *)
Definition toHex (prefix : option bool) : completion js_string :=
  let prefix := match prefix with Some p => p | None => true end in
  hex <- BigInt_prototype_toString (value this) (Some (NumInt 16)) ;;
  Normal (if prefix then lit "0x" ++ hex else hex).

Definition toBinary (prefix : option bool) : completion js_string :=
  let prefix := match prefix with Some p => p | None => true end in
  binary <- BigInt_prototype_toString (value this) (Some (NumInt 2)) ;;
  Normal (if prefix then lit "0b" ++ binary else binary).

Definition toOctal (prefix : option bool) : completion js_string :=
  let prefix := match prefix with Some p => p | None => true end in
  octal <- BigInt_prototype_toString (value this) (Some (NumInt 8)) ;;
  Normal (if prefix then lit "0o" ++ octal else octal).

Definition toString (radix : option number) : completion js_string :=
  let radix := match radix with Some r => r | None => NumInt 10 end in
  BigInt_prototype_toString (value this) (Some radix).

Definition equals (other : BigIntCoercion) : bool := value this =? value other.
Definition isZero : bool := value this =? 0.
Definition isPositive : bool := 0 <? value this.
Definition isNegative : bool := value this <? 0.

Definition isEven : completion bool :=
  r <- BigInt_remainder (value this) 2 ;; Normal (r =? 0).

Definition isOdd : completion bool :=
  r <- BigInt_remainder (value this) 2 ;; Normal (negb (r =? 0)).
End Conversions.

Definition of_bigint (v : Z) : BigIntCoercion := {| value := v |}.

(** [new BigIntCoercion(value)]. *)
Definition constructor `{HostNumberToString} (v : js_value)
  : completion BigIntCoercion :=
  match v with
  | VBigInt z => Normal {| value := z |}
  | _ =>
      rendering <- String_of v ;;
      Throw (TypeError (lit "Expected a bigint, but received " ++ lit (typeof v)
                        ++ lit ". Value: " ++ rendering))
  end.

(** Every public method, applied to its arguments. *)
Inductive method : Type :=
| m_equals (other : BigIntCoercion)
| m_toBigInt | m_toInt8 | m_toUint8 | m_toInt16 | m_toUint16
| m_toInt32 | m_toUint32 | m_toAbsInt32 | m_toInt64 | m_toUint64
| m_toBigInt64 | m_toBigUint64 | m_toChar | m_toCodePoint | m_toNumber
| m_toHex (prefix : option bool)
| m_toBinary (prefix : option bool)
| m_toOctal (prefix : option bool)
| m_toString (radix : option number)
| m_isZero | m_isPositive | m_isNegative | m_isEven | m_isOdd.

Definition invoke (this : BigIntCoercion) (m : method) : completion js_value :=
  match m with
  | m_equals other => Normal (VBoolean (equals this other))
  | m_toBigInt => Normal (VBigInt (toBigInt this))
  | m_toInt8 => Normal (VNumber (toInt8 this))
  | m_toUint8 => Normal (VNumber (toUint8 this))
  | m_toInt16 => Normal (VNumber (toInt16 this))
  | m_toUint16 => Normal (VNumber (toUint16 this))
  | m_toInt32 => Normal (VNumber (toInt32 this))
  | m_toUint32 => Normal (VNumber (toUint32 this))
  | m_toAbsInt32 => Normal (VNumber (toAbsInt32 this))
  | m_toInt64 => Normal (VNumber (toInt64 this))
  | m_toUint64 => Normal (VNumber (toUint64 this))
  | m_toBigInt64 => Normal (VBigInt (toBigInt64 this))
  | m_toBigUint64 => Normal (VBigInt (toBigUint64 this))
  | m_toChar => Normal (VString (toChar this))
  | m_toCodePoint => s <- toCodePoint this ;; Normal (VString s)
  | m_toNumber => Normal (VNumber (toNumber this))
  | m_toHex prefix => s <- toHex this prefix ;; Normal (VString s)
  | m_toBinary prefix => s <- toBinary this prefix ;; Normal (VString s)
  | m_toOctal prefix => s <- toOctal this prefix ;; Normal (VString s)
  | m_toString radix => s <- toString this radix ;; Normal (VString s)
  | m_isZero => Normal (VBoolean (isZero this))
  | m_isPositive => Normal (VBoolean (isPositive this))
  | m_isNegative => Normal (VBoolean (isNegative this))
  | m_isEven => b <- isEven this ;; Normal (VBoolean b)
  | m_isOdd => b <- isOdd this ;; Normal (VBoolean b)
  end.

(** The radix argument of [toString] is within the documented 2-36 (or
    omitted). *)
Definition radix_documented (m : method) : Prop :=
  match m with
  | m_toString (Some n) =>
      exists r, truncate n = Some r /\ 2 <= r <= 36
  | _ => True
  end.

(** ** str-to-bigint.ts *)

(** [stringToBigInt(seed, encoder)] with the encoder omitted or an instance of
    the built-in class; [stringToBigInt_using] below is the same body run on
    whatever object of that type the caller supplies. *)
Definition stringToBigInt `{HostNumberToString}
  (seed : js_value) (encoder : option TextEncoder) : completion BigIntCoercion :=
  match seed with
  | VString seed =>
      if Z.of_nat (length seed) =? 0 then constructor (VBigInt 0)
      else
        let textEncoder :=
          match encoder with Some e => e | None => new_TextEncoder end in
        let encoded := TextEncoder_encode textEncoder seed in
        let hex :=
          join_empty
            (map (fun byte => padStart (byte_toString16 byte) 2 (lit "0")) encoded) in
        n <- BigInt_of_string (lit "0x" ++ hex) ;;
        constructor (VBigInt n)
  | _ =>
      rendering <- String_of seed ;;
      Throw (TypeError (lit "Expected a string, but received " ++ lit (typeof seed)
                        ++ lit ". Value: " ++ rendering))
  end.

(** [stringToBigInt(seed, encoder).toBigInt()]. *)
Definition seed_value `{HostNumberToString}
  (seed : js_string) (encoder : option TextEncoder) : completion Z :=
  c <- stringToBigInt (VString seed) encoder ;; Normal (toBigInt c).

(** ** Notions the specification states its properties with *)

(** Big-endian base-256 reading of a byte sequence. *)
Definition big_endian_256 (bytes : list Z) : Z :=
  fold_left (fun acc b => acc * 256 + b) bytes 0.

(** The two hexadecimal digits of a byte, high nibble first. *)
Definition hex_pair (b : Z) : js_string := [digit_char (b / 16); digit_char (b mod 16)].

(** Reading a text as a signed integer in a radix: an optional minus sign,
    then at least one digit of that radix. *)
Definition spec_parse_signed (radix : Z) (s : js_string) : option Z :=
  match s with
  | 45 :: ds => option_map Z.opp (parse_nonempty radix ds)
  | ds => parse_nonempty radix ds
  end.

(** Removing a leading marker ([0x], [0b], [0o]) when the text starts with it. *)
Definition spec_strip_marker (marker : js_string) (s : js_string) : js_string :=
  match marker, s with
  | [m1; m2], c1 :: c2 :: rest =>
      if (c1 =? m1) && (c2 =? m2) then rest else s
  | _, _ => s
  end.

(** [r] is the non-negative residue of [V] modulo 2^N. *)
Definition is_residue (N V r : Z) : Prop :=
  r = V mod 2 ^ N /\ 0 <= r <= 2 ^ N - 1.

(** [r] is the two's-complement reading of the N-bit residue of [V]. *)
Definition is_twos_complement (N V r : Z) : Prop :=
  - 2 ^ (N - 1) <= r <= 2 ^ (N - 1) - 1
  /\ (V mod 2 ^ N < 2 ^ (N - 1) -> r = V mod 2 ^ N)
  /\ (2 ^ (N - 1) <= V mod 2 ^ N -> r = V mod 2 ^ N - 2 ^ N).

Definition number_abs (n : number) : number :=
  match n with
  | NumInt z => NumInt (Z.abs z)
  | NumFraction m k => NumFraction (Z.abs m) k
  | NumInfinity _ => NumInfinity false
  | NumNaN => NumNaN
  end.

(** The code point [toCodePoint] is specified to render: V mod 2^21, masked
    with 0x10FFFF when above it. *)
Definition rendered_code_point (V : Z) : Z :=
  let c := V mod 2 ^ 21 in
  if c <=? 1114111 then c else Z.land c 1114111.

(** A code unit that is the digit character of some digit below the radix. *)
Definition is_digit_of (radix u : Z) : Prop :=
  exists d, 0 <= d < radix /\ u = digit_char d.

(** The value of a [prefix = true] parameter. *)
Definition prefix_or_default (prefix : option bool) : bool :=
  match prefix with Some p => p | None => true end.

Definition byte_ok (b : Z) : Prop := 0 <= b < 256.

(** The text [stringToBigInt] builds from the encoded bytes. *)
Definition hex_of_bytes (encoded : list Z) : js_string :=
  join_empty (map (fun byte => padStart (byte_toString16 byte) 2 (lit "0")) encoded).

(** A value whose string payload, if any, is made of 16-bit code units. *)
Definition js_value_ok (v : js_value) : Prop :=
  match v with
  | VString s => js_string_ok s
  | _ => True
  end.

Definition js_string_eqb (a b : js_string) : bool :=
  if list_eq_dec Z.eq_dec a b then true else false.

(** A code unit that [trim] leaves alone. *)
Definition plain (u : Z) : Prop := is_white_space u = false.

(** A Unicode code point. *)
Definition scalar_ok (cp : Z) : Prop := 0 <= cp < 1114112.

(** A rendering of Numbers for the closed examples only; it is not
    Number::toString.  It agrees with it on integers below 10^21, on NaN, on
    the infinities and on fractions whose exact decimal expansion is their
    shortest one (36.5, -0.0625); elsewhere (0.1, 10^21) the host prints
    something else. *)
#[local] Instance sample_host : HostNumberToString :=
  fun n =>
    match n with
    | NumInt z => integer_toString z 10
    | NumFraction m k =>
        let d := 2 ^ Z.pos k in
        (if m <? 0 then lit "-" else [])
        ++ magnitude_digits 10 (Z.abs m / d) ++ lit "."
        ++ padStart (magnitude_digits 10 (Z.abs m mod d * 5 ^ Z.pos k))
                    (Pos.to_nat k) (lit "0")
    | NumInfinity negative => if negative then lit "-Infinity" else lit "Infinity"
    | NumNaN => lit "NaN"
    end.

(** ** Notions for the remaining methods *)

(** Unary minus on Numbers. *)
Definition number_opp (n : number) : number :=
  match n with
  | NumInt z => NumInt (- z)
  | NumFraction m k => NumFraction (- m) k
  | NumInfinity negative => NumInfinity (negb negative)
  | NumNaN => NumNaN
  end.

(** The methods whose body reads [this.value] only through
    [BigInt.asIntN]/[BigInt.asUintN] of at most 64 bits or through [% 2n]. *)
Definition reads_low_64_bits (m : method) : bool :=
  match m with
  | m_toInt8 | m_toUint8 | m_toInt16 | m_toUint16 | m_toInt32 | m_toUint32
  | m_toInt64 | m_toUint64 | m_toBigInt64 | m_toBigUint64
  | m_toChar | m_toCodePoint | m_isEven | m_isOdd => true
  | _ => false
  end.

(** [s.isWellFormed()]: no unpaired surrogate. *)
Fixpoint isWellFormed (s : js_string) : bool :=
  match s with
  | [] => true
  | u :: rest =>
      if is_lead_surrogate u then
        match rest with
        | t :: rest' => is_trail_surrogate t && isWellFormed rest'
        | [] => false
        end
      else negb (is_trail_surrogate u) && isWellFormed rest
  end.

(** [BigInt(text)] applied to the text a rendering method returned. *)
Definition BigInt_of_rendering (rendering : completion js_string) : completion Z :=
  text <- rendering ;; BigInt_of_string text.

(** The last [k] bytes of a byte sequence (all of it when shorter). *)
Definition last_bytes (k : nat) (bytes : list Z) : list Z :=
  skipn (length bytes - k) bytes.

(** [s1 + s2] pairs a lead surrogate ending [s1] with a trail surrogate
    starting [s2]. *)
Definition joins_surrogates (s1 s2 : js_string) : bool :=
  is_lead_surrogate (last s1 0) && is_trail_surrogate (hd 0 s2).

(** A code unit of plain ASCII text. *)
Definition ascii_unit (u : Z) : Prop := 0 <= u <= 127.

(** The UTF-8 encoder's bytes for one scalar value, with the shifts and masks
    written as divisions and remainders. *)
Definition utf8_bytes_arith (cp : Z) : list Z :=
  if cp <=? 127 then [cp]
  else if cp <=? 2047 then [cp / 64 + 192; 128 + cp mod 64]
  else if cp <=? 65535
       then [cp / 4096 + 224; 128 + (cp / 64) mod 64; 128 + cp mod 64]
       else [cp / 262144 + 240; 128 + (cp / 4096) mod 64;
             128 + (cp / 64) mod 64; 128 + cp mod 64].

(** ** stringToBigInt with the caller's own encoder object *)

(** An object of the type [TextEncoder] as a caller can supply it, a subclass
    instance included: what [stringToBigInt] uses of it is its [encode]
    method, here the contents of the Uint8Array it returns. *)
Record encoder_object : Type := { encode_method : js_string -> list Z }.

(** An instance of the built-in class seen as such an object. *)
Definition builtin_encoder (e : TextEncoder) : encoder_object :=
  {| encode_method := TextEncoder_encode e |}.

(** The body of [stringToBigInt], calling [textEncoder.encode(seed)] on the
    object it was given. *)
Definition stringToBigInt_using `{HostNumberToString}
  (seed : js_value) (encoder : option encoder_object) : completion BigIntCoercion :=
  match seed with
  | VString seed =>
      if Z.of_nat (length seed) =? 0 then constructor (VBigInt 0)
      else
        let textEncoder :=
          match encoder with
          | Some e => e
          | None => builtin_encoder new_TextEncoder
          end in
        let encoded := encode_method textEncoder seed in
        let hex :=
          join_empty
            (map (fun byte => padStart (byte_toString16 byte) 2 (lit "0")) encoded) in
        n <- BigInt_of_string (lit "0x" ++ hex) ;;
        constructor (VBigInt n)
  | _ =>
      rendering <- String_of seed ;;
      Throw (TypeError (lit "Expected a string, but received " ++ lit (typeof seed)
                        ++ lit ". Value: " ++ rendering))
  end.

(** [stringToBigInt(seed, encoder).toBigInt()] for such an object. *)
Definition seed_value_using `{HostNumberToString}
  (seed : js_string) (encoder : option encoder_object) : completion Z :=
  c <- stringToBigInt_using (VString seed) encoder ;; Normal (toBigInt c).

(** [s.toUpperCase()] on ASCII letters. *)
Definition ascii_upper (u : Z) : Z :=
  if (97 <=? u) && (u <=? 122) then u - 32 else u.

(** A subclass whose [encode(s)] is [super.encode(s.toUpperCase())]. *)
Definition upper_case_encoder : encoder_object :=
  {| encode_method := fun s => utf8_encode (map ascii_upper s) |}.

(** A subclass whose [encode] returns an empty Uint8Array. *)
Definition silent_encoder : encoder_object :=
  {| encode_method := fun _ => [] |}.

(** An object whose [encode] is written differently from the built-in one
    and returns the code units themselves: UTF-8 on ASCII text only. *)
Definition ascii_only_encoder : encoder_object :=
  {| encode_method := fun s => s |}.

(** ** Documented examples *)

Example conversions_doc :
  toUint8 (of_bigint 256) = NumInt 0
  /\ toUint8 (of_bigint (-1)) = NumInt 255
  /\ toInt8 (of_bigint 128) = NumInt (-128)
  /\ toInt8 (of_bigint (-129)) = NumInt 127
  /\ toInt32 (of_bigint 9999999999) = NumInt 1410065407
  /\ toAbsInt32 (of_bigint (-9999999999)) = NumInt 1410065407
  /\ toNumber (of_bigint (2 ^ 53 + 1)) = NumInt (2 ^ 53)
  /\ toNumber (of_bigint (2 ^ 53 + 3)) = NumInt (2 ^ 53 + 4)
  /\ toUint64 (of_bigint (-1)) = NumInt (2 ^ 64).
Proof. repeat split; vm_compute; reflexivity. Qed.

Example renderings_doc :
  toHex (of_bigint 255) None = Normal (lit "0xff")
  /\ toHex (of_bigint 4096) (Some false) = Normal (lit "1000")
  /\ toBinary (of_bigint 5) None = Normal (lit "0b101")
  /\ toOctal (of_bigint 511) None = Normal (lit "0o777")
  /\ toString (of_bigint 42) (Some (NumInt 36)) = Normal (lit "16")
  /\ toString (of_bigint (-42)) None = Normal (lit "-42")
  /\ toChar (of_bigint 128512) = [62976]
  /\ toCodePoint (of_bigint 128512) = Normal [55357; 56832].
Proof. repeat split; vm_compute; reflexivity. Qed.

Example sample_host_doc :
  Number_toString (NumFraction 73 1) = lit "36.5"
  /\ Number_toString (NumFraction (-1) 4) = lit "-0.0625"
  /\ Number_toString (NumInt (-42)) = lit "-42".
Proof. repeat split; vm_compute; reflexivity. Qed.

Example stringToBigInt_doc :
  seed_value (lit "hello") None = Normal 448378203247
  /\ seed_value [55357; 56960] None = Normal 4036991616
  /\ seed_value (lit "aa") (Some {| instance_id := 7 |}) = Normal 24929.
Proof. repeat split; vm_compute; reflexivity. Qed.

(** ** Fixed-width conversions *)

Lemma Number_of_bigint_exact (x : Z) :
  Z.abs x < 2 ^ 53 -> Number_of_bigint x = NumInt x.
Proof.
  intros Hx. unfold Number_of_bigint.
  destruct (Z.ltb_spec (Z.abs x) (2 ^ 53)); [reflexivity | lia].
Qed.

Lemma asUintN_residue (N V : Z) :
  0 <= N -> is_residue N V (BigInt_asUintN N V).
Proof.
  intros HN. unfold is_residue, BigInt_asUintN.
  assert (0 < 2 ^ N) by (apply Z.pow_pos_nonneg; lia).
  pose proof (Z.mod_pos_bound V (2 ^ N)). lia.
Qed.

Lemma asUintN_periodic (N V : Z) :
  BigInt_asUintN N (V + 2 ^ N) = BigInt_asUintN N V
  /\ BigInt_asUintN N (V - 2 ^ N) = BigInt_asUintN N V.
Proof.
  unfold BigInt_asUintN. split.
  - replace (V + 2 ^ N) with (V + 1 * 2 ^ N) by lia. apply Z_mod_plus_full.
  - replace (V - 2 ^ N) with (V + (-1) * 2 ^ N) by lia. apply Z_mod_plus_full.
Qed.

Lemma asIntN_twos_complement (N V : Z) :
  0 < N -> is_twos_complement N V (BigInt_asIntN N V).
Proof.
  intros HN. unfold is_twos_complement, BigInt_asIntN.
  assert (Hp : 0 < 2 ^ (N - 1)) by (apply Z.pow_pos_nonneg; lia).
  assert (Hd : 2 ^ N = 2 * 2 ^ (N - 1)).
  { replace N with (Z.succ (N - 1)) at 1 by lia. apply Z.pow_succ_r. lia. }
  pose proof (Z.mod_pos_bound V (2 ^ N)).
  destruct (Z.leb_spec (2 ^ (N - 1)) (V mod 2 ^ N)); lia.
Qed.

Lemma asIntN_congruent (N V : Z) :
  0 < N -> BigInt_asIntN N V mod 2 ^ N = BigInt_asUintN N V.
Proof.
  intros HN. unfold BigInt_asIntN, BigInt_asUintN.
  assert (0 < 2 ^ N) by (apply Z.pow_pos_nonneg; lia).
  destruct (Z.leb_spec (2 ^ (N - 1)) (V mod 2 ^ N)).
  - rewrite <- (Z_mod_plus_full _ 1 (2 ^ N)).
    replace (V mod 2 ^ N - 2 ^ N + 1 * 2 ^ N) with (V mod 2 ^ N) by lia.
    apply Z.mod_mod. lia.
  - apply Z.mod_mod. lia.
Qed.

Lemma Number_of_asUintN (N V : Z) :
  0 <= N <= 53 ->
  Number_of_bigint (BigInt_asUintN N V) = NumInt (BigInt_asUintN N V).
Proof.
  intros HN. apply Number_of_bigint_exact.
  destruct (asUintN_residue N V) as [_ Hr]; [lia|].
  assert (2 ^ N <= 2 ^ 53) by (apply Z.pow_le_mono_r; lia). lia.
Qed.

Lemma Number_of_asIntN (N V : Z) :
  0 < N <= 53 ->
  Number_of_bigint (BigInt_asIntN N V) = NumInt (BigInt_asIntN N V).
Proof.
  intros HN. apply Number_of_bigint_exact.
  destruct (asIntN_twos_complement N V) as [Hr _]; [lia|].
  assert (2 ^ (N - 1) < 2 ^ 53) by (apply Z.pow_lt_mono_r; lia). lia.
Qed.

(** C1. For every bigint V, toUint8/16/32 and toBigUint64 return the
    non-negative residue V mod 2^N, which lies in [0, 2^N - 1]; toUint64
    returns it too whenever the residue is a safe integer; all of them are
    unchanged when 2^N is added to or subtracted from V; toUint8 of -1 is
    255 and toBigUint64 of -1 is 2^64 - 1. *)
Theorem unsigned_conversions_are_residues (V : Z) :
  ((exists r, toUint8 (of_bigint V) = NumInt r /\ is_residue 8 V r)
   /\ (exists r, toUint16 (of_bigint V) = NumInt r /\ is_residue 16 V r)
   /\ (exists r, toUint32 (of_bigint V) = NumInt r /\ is_residue 32 V r)
   /\ is_residue 64 V (toBigUint64 (of_bigint V))
   /\ (V mod 2 ^ 64 <= 2 ^ 53 - 1 ->
       toUint64 (of_bigint V) = NumInt (V mod 2 ^ 64)))
  /\ ((toUint8 (of_bigint (V + 2 ^ 8)) = toUint8 (of_bigint V)
       /\ toUint8 (of_bigint (V - 2 ^ 8)) = toUint8 (of_bigint V))
      /\ (toUint16 (of_bigint (V + 2 ^ 16)) = toUint16 (of_bigint V)
          /\ toUint16 (of_bigint (V - 2 ^ 16)) = toUint16 (of_bigint V))
      /\ (toUint32 (of_bigint (V + 2 ^ 32)) = toUint32 (of_bigint V)
          /\ toUint32 (of_bigint (V - 2 ^ 32)) = toUint32 (of_bigint V))
      /\ (toBigUint64 (of_bigint (V + 2 ^ 64)) = toBigUint64 (of_bigint V)
          /\ toBigUint64 (of_bigint (V - 2 ^ 64)) = toBigUint64 (of_bigint V))
      /\ (toUint64 (of_bigint (V + 2 ^ 64)) = toUint64 (of_bigint V)
          /\ toUint64 (of_bigint (V - 2 ^ 64)) = toUint64 (of_bigint V)))
  /\ toUint8 (of_bigint (-1)) = NumInt 255
  /\ toBigUint64 (of_bigint (-1)) = 2 ^ 64 - 1.
Proof.
  unfold toUint8, toUint16, toUint32, toUint64, toBigUint64, of_bigint; cbn [value].
  split; [|split].
  - split; [|split; [|split; [|split]]].
    + eexists; split; [apply Number_of_asUintN; lia | apply asUintN_residue; lia].
    + eexists; split; [apply Number_of_asUintN; lia | apply asUintN_residue; lia].
    + eexists; split; [apply Number_of_asUintN; lia | apply asUintN_residue; lia].
    + apply asUintN_residue; lia.
    + intros Hsafe. apply Number_of_bigint_exact.
      unfold BigInt_asUintN.
      pose proof (Z.mod_pos_bound V (2 ^ 64) ltac:(lia)). lia.
  - repeat split;
      first [ rewrite (proj1 (asUintN_periodic _ V)); reflexivity
            | rewrite (proj2 (asUintN_periodic _ V)); reflexivity ].
  - split; vm_compute; reflexivity.
Qed.

Lemma unsigned_conversions_are_residues_witness :
  (2 ^ 64 + 5) mod 2 ^ 64 <= 2 ^ 53 - 1
  /\ toUint64 (of_bigint (2 ^ 64 + 5)) = NumInt ((2 ^ 64 + 5) mod 2 ^ 64).
Proof.
  assert (Hsafe : (2 ^ 64 + 5) mod 2 ^ 64 <= 2 ^ 53 - 1)
    by (vm_compute; discriminate).
  split; [exact Hsafe|].
  destruct (unsigned_conversions_are_residues (2 ^ 64 + 5))
    as [[_ [_ [_ [_ Hlossy]]]] _].
  exact (Hlossy Hsafe).
Defined.

(** C2. For every bigint V, toInt8/16/32 and toBigInt64 return the
    two's-complement reading of V mod 2^N: a value in
    [-2^(N-1), 2^(N-1) - 1], the residue when it is below 2^(N-1) and the
    residue minus 2^N otherwise; the unsigned conversion is the signed one
    modulo 2^N; toBigInt64 of 2^63 is -2^63. *)
Theorem signed_conversions_are_twos_complement (V : Z) :
  (exists r, toInt8 (of_bigint V) = NumInt r /\ is_twos_complement 8 V r
             /\ toUint8 (of_bigint V) = NumInt (r mod 2 ^ 8))
  /\ (exists r, toInt16 (of_bigint V) = NumInt r /\ is_twos_complement 16 V r
                /\ toUint16 (of_bigint V) = NumInt (r mod 2 ^ 16))
  /\ (exists r, toInt32 (of_bigint V) = NumInt r /\ is_twos_complement 32 V r
                /\ toUint32 (of_bigint V) = NumInt (r mod 2 ^ 32))
  /\ (is_twos_complement 64 V (toBigInt64 (of_bigint V))
      /\ toBigUint64 (of_bigint V) = toBigInt64 (of_bigint V) mod 2 ^ 64)
  /\ toBigInt64 (of_bigint (2 ^ 63)) = - 2 ^ 63.
Proof.
  unfold toInt8, toInt16, toInt32, toBigInt64, toUint8, toUint16, toUint32,
    toBigUint64, of_bigint; cbn [value].
  split; [|split; [|split; [|split]]].
  - exists (BigInt_asIntN 8 V). rewrite asIntN_congruent by lia.
    split; [apply Number_of_asIntN; lia|].
    split; [apply asIntN_twos_complement; lia | apply Number_of_asUintN; lia].
  - exists (BigInt_asIntN 16 V). rewrite asIntN_congruent by lia.
    split; [apply Number_of_asIntN; lia|].
    split; [apply asIntN_twos_complement; lia | apply Number_of_asUintN; lia].
  - exists (BigInt_asIntN 32 V). rewrite asIntN_congruent by lia.
    split; [apply Number_of_asIntN; lia|].
    split; [apply asIntN_twos_complement; lia | apply Number_of_asUintN; lia].
  - split; [apply asIntN_twos_complement; lia|].
    symmetry. apply asIntN_congruent. lia.
  - vm_compute. reflexivity.
Qed.

(** ** toAbsInt32 *)

(** C5. For every bigint V, toAbsInt32(V) is |V| mod 2^31, lies in
    [0, 2^31 - 1] and equals toAbsInt32(-V); for V = 2^31 it differs from the
    absolute value of toInt32(V). *)
Theorem toAbsInt32_magnitude_then_mod (V : Z) :
  toAbsInt32 (of_bigint V) = NumInt (Z.abs V mod 2 ^ 31)
  /\ 0 <= Z.abs V mod 2 ^ 31 <= 2 ^ 31 - 1
  /\ toAbsInt32 (of_bigint V) = toAbsInt32 (of_bigint (- V))
  /\ (exists W, toAbsInt32 (of_bigint W) <> number_abs (toInt32 (of_bigint W))).
Proof.
  assert (Habs : forall U,
             toAbsInt32 (of_bigint U) = NumInt (Z.abs U mod 2 ^ 31)).
  { intros U. unfold toAbsInt32, of_bigint; cbn [value].
    replace (if U <? 0 then - U else U) with (Z.abs U)
      by (destruct (Z.ltb_spec U 0); lia).
    apply Number_of_asUintN. lia. }
  split; [apply Habs|].
  split; [pose proof (Z.mod_pos_bound (Z.abs V) (2 ^ 31)); lia|].
  split.
  - rewrite !Habs, Z.abs_opp. reflexivity.
  - exists (2 ^ 31). vm_compute. discriminate.
Qed.

(** ** toCodePoint *)

Lemma land_le_r (a b : Z) : 0 <= a -> 0 <= b -> Z.land a b <= b.
Proof.
  intros Ha Hb.
  rewrite <- (Z2N.id a Ha), <- (Z2N.id b Hb), <- N2Z.inj_land.
  apply N2Z.inj_le, N.land_le_r.
Qed.

Lemma testbit_lower_bound (a n : Z) :
  0 <= a -> 0 <= n -> Z.testbit a n = true -> 2 ^ n <= a.
Proof.
  intros Ha Hn Hbit.
  apply Z.testbit_true in Hbit; [|exact Hn].
  assert (Hpos : 0 < 2 ^ n) by (apply Z.pow_pos_nonneg; lia).
  destruct (Z.lt_ge_cases a (2 ^ n)) as [Hlt|Hge]; [|exact Hge].
  rewrite (Z.div_small a (2 ^ n)) in Hbit by lia. discriminate.
Qed.

Lemma masked_code_point_range (c : Z) :
  1114111 < c < 2 ^ 21 -> 2 ^ 20 <= Z.land c 1114111 <= 1114111.
Proof.
  intros Hc. split; [|apply land_le_r; lia].
  apply testbit_lower_bound; [apply Z.land_nonneg; lia | lia |].
  rewrite Z.land_spec. apply andb_true_intro. split; [|reflexivity].
  apply Z.testbit_true; [lia|].
  replace (c / 2 ^ 20) with 1
    by (apply Z.div_unique with (r := c - 2 ^ 20); lia).
  reflexivity.
Qed.

Lemma rendered_code_point_range (V : Z) :
  0 <= rendered_code_point V <= 1114111.
Proof.
  unfold rendered_code_point.
  pose proof (Z.mod_pos_bound V (2 ^ 21) ltac:(lia)) as Hc.
  destruct (Z.leb_spec (V mod 2 ^ 21) 1114111) as [Hle|Hgt]; [lia|].
  pose proof (masked_code_point_range (V mod 2 ^ 21)). lia.
Qed.

Lemma UTF16EncodeCodePoint_decodes (cp : Z) :
  0 <= cp <= 1114111 -> codePointAt0 (UTF16EncodeCodePoint cp) = Some cp.
Proof.
  intros Hcp. unfold UTF16EncodeCodePoint.
  destruct (Z.leb_spec cp 65535) as [Hbmp|Hsup]; cbn [codePointAt0].
  - destruct (is_lead_surrogate cp); reflexivity.
  - pose proof (Z.mod_pos_bound (cp - 65536) 1024 ltac:(lia)) as Hr.
    pose proof (Z.div_mod (cp - 65536) 1024 ltac:(lia)) as Hdm.
    assert (Hq : 0 <= (cp - 65536) / 1024 <= 1023).
    { lia. }
    unfold is_lead_surrogate, is_trail_surrogate.
    destruct (Z.leb_spec 55296 ((cp - 65536) / 1024 + 55296)); [|lia].
    destruct (Z.leb_spec ((cp - 65536) / 1024 + 55296) 56319); [|lia].
    destruct (Z.leb_spec 56320 ((cp - 65536) mod 1024 + 56320)); [|lia].
    destruct (Z.leb_spec ((cp - 65536) mod 1024 + 56320) 57343); [|lia].
    cbn [andb]. f_equal. lia.
Qed.

Lemma UTF16EncodeCodePoint_length (cp : Z) :
  length (UTF16EncodeCodePoint cp) = if cp <? 65536 then 1%nat else 2%nat.
Proof.
  unfold UTF16EncodeCodePoint.
  destruct (Z.leb_spec cp 65535), (Z.ltb_spec cp 65536); try lia; reflexivity.
Qed.

Lemma toCodePoint_renders (V : Z) :
  toCodePoint (of_bigint V)
  = Normal (UTF16EncodeCodePoint (rendered_code_point V)).
Proof.
  pose proof (rendered_code_point_range V) as Hrange. revert Hrange.
  unfold toCodePoint, rendered_code_point, of_bigint; cbn [value].
  unfold BigInt_asUintN.
  pose proof (Z.mod_pos_bound V (2 ^ 21) ltac:(lia)) as Hc.
  set (c := V mod 2 ^ 21) in *.
  rewrite Number_of_bigint_exact by lia.
  cbn [Number_greaterThan].
  destruct (Z.leb_spec c 1114111) as [Hle|Hgt];
    destruct (Z.ltb_spec 1114111 c) as [Hlt|Hge]; try lia; intros Hrange.
  - unfold String_fromCodePoint.
    destruct (Z.ltb_spec c 0); [lia|].
    destruct (Z.ltb_spec 1114111 c); [lia|]. reflexivity.
  - unfold Number_bitwiseAND, ToInt32; cbn [truncate].
    rewrite (Z.mod_small c (2 ^ 32)) by lia.
    destruct (Z.leb_spec (2 ^ 31) c); [lia|].
    change (1114111 mod 2 ^ 32) with 1114111.
    change (2 ^ 31 <=? 1114111) with false. cbv iota.
    unfold String_fromCodePoint.
    destruct (Z.ltb_spec (Z.land c 1114111) 0); [lia|].
    destruct (Z.ltb_spec 1114111 (Z.land c 1114111)); [lia|]. reflexivity.
Qed.

(** C6. For every bigint V, toCodePoint renders the code point
    c = V mod 2^21 when c <= 0x10FFFF and c AND 0x10FFFF otherwise; it never
    throws; the text reads back as that code point and has one UTF-16 code
    unit when the code point is below 0x10000 and two otherwise. *)
Theorem toCodePoint_remasks (V : Z) :
  let c := V mod 2 ^ 21 in
  let cp := if c <=? 1114111 then c else Z.land c 1114111 in
  exists s,
    toCodePoint (of_bigint V) = Normal s
    /\ s = UTF16EncodeCodePoint cp
    /\ codePointAt0 s = Some cp
    /\ length s = (if cp <? 65536 then 1%nat else 2%nat).
Proof.
  intros c cp. exists (UTF16EncodeCodePoint cp).
  split; [apply toCodePoint_renders|].
  split; [reflexivity|].
  split; [apply UTF16EncodeCodePoint_decodes, rendered_code_point_range
         | apply UTF16EncodeCodePoint_length].
Qed.

Example toCodePoint_remask_example :
  toCodePoint (of_bigint 2097151) = Normal [56319; 57343]
  /\ rendered_code_point 2097151 = 1114111
  /\ toCodePoint (of_bigint (-1)) = Normal [56319; 57343]
  /\ toCodePoint (of_bigint 1114112) = Normal [56256; 56320].
Proof. repeat split; vm_compute; reflexivity. Qed.

(** ** Radix renderings *)

Section Digits.
Variable radix : Z.
Hypothesis radix_ok : 2 <= radix <= 36.

Lemma digit_value_digit_char (d : Z) :
  0 <= d < 36 -> digit_value (digit_char d) = Some d.
Proof.
  intros Hd. unfold digit_char, digit_value.
  destruct (Z.ltb_spec d 10).
  - destruct (Z.leb_spec 48 (48 + d)); [|lia].
    destruct (Z.leb_spec (48 + d) 57); [|lia].
    cbn [andb]. f_equal. lia.
  - destruct (Z.leb_spec 48 (97 + (d - 10))); [|lia].
    destruct (Z.leb_spec (97 + (d - 10)) 57); [lia|].
    destruct (Z.leb_spec 97 (97 + (d - 10))); [|lia].
    destruct (Z.leb_spec (97 + (d - 10)) 122); [|lia].
    cbn [andb]. f_equal. lia.
Qed.

Lemma parse_digits_app (xs ys : js_string) (acc : Z) :
  parse_digits radix (xs ++ ys) acc
  = match parse_digits radix xs acc with
    | Some a => parse_digits radix ys a
    | None => None
    end.
Proof.
  revert acc. induction xs as [|u xs IH]; intros acc; cbn [app parse_digits].
  - reflexivity.
  - destruct (digit_value u) as [d|]; [|reflexivity].
    destruct (d <? radix); [apply IH | reflexivity].
Qed.

Lemma parse_digit_char (d acc : Z) :
  0 <= d < radix ->
  parse_digits radix [digit_char d] acc = Some (acc * radix + d).
Proof.
  intros Hd. cbn [parse_digits].
  rewrite digit_value_digit_char by lia.
  destruct (Z.ltb_spec d radix); [reflexivity | lia].
Qed.

Lemma digits_of_acc (fuel : nat) (n : Z) (acc : js_string) :
  digits_of fuel radix n acc = digits_of fuel radix n [] ++ acc.
Proof.
  revert n acc. induction fuel as [|fuel IH]; intros n acc; cbn [digits_of].
  - reflexivity.
  - destruct (n / radix =? 0); [reflexivity|].
    rewrite (IH _ (_ :: acc)), (IH _ [_]), <- app_assoc. reflexivity.
Qed.

Lemma digits_of_digits (fuel : nat) (n : Z) :
  Forall (is_digit_of radix) (digits_of fuel radix n []).
Proof.
  revert n. induction fuel as [|fuel IH]; intros n; cbn [digits_of].
  - constructor.
  - assert (Hd : is_digit_of radix (digit_char (n mod radix))).
    { exists (n mod radix). split; [apply Z.mod_pos_bound; lia | reflexivity]. }
    destruct (n / radix =? 0); [repeat constructor; exact Hd|].
    rewrite digits_of_acc. apply Forall_app. split; [apply IH|].
    repeat constructor; exact Hd.
Qed.

Lemma parse_digits_of (fuel : nat) (n : Z) :
  0 <= n < 2 ^ Z.of_nat fuel ->
  parse_digits radix (digits_of fuel radix n []) 0 = Some n.
Proof.
  revert n. induction fuel as [|fuel IH]; intros n Hn.
  - cbn [digits_of parse_digits]. f_equal. change (2 ^ Z.of_nat 0) with 1 in Hn. lia.
  - cbn [digits_of].
    pose proof (Z.mod_pos_bound n radix ltac:(lia)) as Hr.
    pose proof (Z.div_mod n radix ltac:(lia)) as Hdm.
    destruct (Z.eqb_spec (n / radix) 0) as [Hq|Hq].
    + rewrite parse_digit_char by exact Hr. f_equal. rewrite Hq in Hdm. lia.
    + rewrite digits_of_acc, parse_digits_app, IH.
      * rewrite parse_digit_char by exact Hr. f_equal. lia.
      * rewrite Nat2Z.inj_succ, Z.pow_succ_r in Hn by lia.
        split; [apply Z.div_pos; lia|].
        apply Z.div_lt_upper_bound; [lia|]. nia.
Qed.

Lemma magnitude_digits_nonempty (n : Z) : magnitude_digits radix n <> [].
Proof.
  unfold magnitude_digits. cbn [digits_of].
  destruct (n / radix =? 0); [discriminate|].
  rewrite digits_of_acc. intros H. apply app_eq_nil in H. destruct H; discriminate.
Qed.

Lemma magnitude_digits_parse (n : Z) :
  0 <= n -> parse_nonempty radix (magnitude_digits radix n) = Some n.
Proof.
  intros Hn. unfold parse_nonempty.
  pose proof (magnitude_digits_nonempty n) as Hne.
  destruct (magnitude_digits radix n) as [|u ds] eqn:E; [contradiction|].
  rewrite <- E. unfold magnitude_digits. apply parse_digits_of.
  rewrite Nat2Z.inj_succ, Z2Nat.id by apply Z.log2_nonneg.
  destruct (Z.eq_dec n 0) as [->|Hnz]; [cbn; lia|].
  split; [exact Hn | apply Z.log2_spec; lia].
Qed.

Lemma magnitude_digits_digits (n : Z) :
  Forall (is_digit_of radix) (magnitude_digits radix n).
Proof. apply digits_of_digits. Qed.

Lemma digit_is_alphanumeric (u : Z) :
  is_digit_of radix u -> 48 <= u <= 57 \/ 97 <= u <= 122.
Proof.
  intros [d [Hd ->]]. unfold digit_char. destruct (Z.ltb_spec d 10); lia.
Qed.

Lemma magnitude_digits_unsigned (n : Z) :
  spec_parse_signed radix (magnitude_digits radix n)
  = parse_nonempty radix (magnitude_digits radix n).
Proof.
  pose proof (magnitude_digits_digits n) as Hall.
  destruct (magnitude_digits radix n) as [|u ds]; [reflexivity|].
  inversion Hall as [|? ? Hu _]; subst.
  apply digit_is_alphanumeric in Hu.
  unfold spec_parse_signed.
  destruct u as [|p|p]; try lia.
  do 6 (destruct p as [p|p|]; try lia; try reflexivity).
Qed.

(** Reading back what BigInt::toString wrote gives the integer. *)
Lemma integer_toString_parse (x : Z) :
  spec_parse_signed radix (integer_toString x radix) = Some x.
Proof.
  unfold integer_toString. destruct (Z.ltb_spec x 0).
  - cbn [spec_parse_signed]. rewrite magnitude_digits_parse by lia.
    cbn [option_map]. f_equal. lia.
  - rewrite magnitude_digits_unsigned. apply magnitude_digits_parse. lia.
Qed.

End Digits.

Lemma digit_char_bounds (radix u : Z) :
  is_digit_of radix u -> 48 <= u < 48 + radix \/ 97 <= u < 87 + radix.
Proof.
  intros [d [Hd ->]]. unfold digit_char. destruct (Z.ltb_spec d 10); lia.
Qed.

(** A marker whose second character is no digit of the radix is never found
    at the head of an unprefixed rendering. *)
Lemma unprefixed_has_no_marker (radix m1 m2 x : Z) :
  2 <= radix <= 36 -> m1 <> 45 -> ~ is_digit_of radix m2 ->
  spec_strip_marker [m1; m2] (integer_toString x radix) = integer_toString x radix.
Proof.
  intros Hr Hm1 Hm2. unfold integer_toString.
  destruct (x <? 0).
  - cbn [spec_strip_marker].
    destruct (magnitude_digits radix (- x)) as [|c2 rest]; [reflexivity|].
    destruct (Z.eqb_spec 45 m1); [congruence | reflexivity].
  - pose proof (magnitude_digits_digits radix Hr x) as Hall.
    destruct (magnitude_digits radix x) as [|c1 [|c2 rest]]; try reflexivity.
    cbn [spec_strip_marker].
    inversion Hall as [|? ? _ Hrest]; subst.
    inversion Hrest as [|? ? Hc2 _]; subst.
    destruct (Z.eqb_spec c2 m2) as [->|_]; [contradiction|].
    rewrite andb_false_r. reflexivity.
Qed.

Lemma x_not_hex : ~ is_digit_of 16 120.
Proof. intros H. apply digit_char_bounds in H. lia. Qed.

Lemma b_not_binary : ~ is_digit_of 2 98.
Proof. intros H. apply digit_char_bounds in H. lia. Qed.

Lemma o_not_octal : ~ is_digit_of 8 111.
Proof. intros H. apply digit_char_bounds in H. lia. Qed.

Lemma toString_in_range (V r : Z) :
  2 <= r <= 36 ->
  toString (of_bigint V) (Some (NumInt r)) = Normal (integer_toString V r).
Proof.
  intros Hr. unfold toString, BigInt_prototype_toString, radix_in_range.
  cbn [truncate value of_bigint].
  destruct (Z.leb_spec 2 r); [|lia]. destruct (Z.leb_spec r 36); [|lia].
  reflexivity.
Qed.

Lemma toHex_unfolded (V : Z) (prefix : option bool) :
  toHex (of_bigint V) prefix
  = Normal (if prefix_or_default prefix
            then lit "0x" ++ integer_toString V 16 else integer_toString V 16).
Proof. reflexivity. Qed.

Lemma toBinary_unfolded (V : Z) (prefix : option bool) :
  toBinary (of_bigint V) prefix
  = Normal (if prefix_or_default prefix
            then lit "0b" ++ integer_toString V 2 else integer_toString V 2).
Proof. reflexivity. Qed.

Lemma toOctal_unfolded (V : Z) (prefix : option bool) :
  toOctal (of_bigint V) prefix
  = Normal (if prefix_or_default prefix
            then lit "0o" ++ integer_toString V 8 else integer_toString V 8).
Proof. reflexivity. Qed.

(** C8. For every bigint V and radix r in [2, 36], reading the output of
    toString(r) as a signed base-r integer gives V back; so does reading the
    output of toHex, toBinary and toOctal in base 16, 2 and 8 once the marker
    prefix, when present, is stripped. *)
Theorem renderings_round_trip (V r : Z) (prefix : option bool) :
  2 <= r <= 36 ->
  (exists s, toString (of_bigint V) (Some (NumInt r)) = Normal s
             /\ spec_parse_signed r s = Some V)
  /\ (exists s, toString (of_bigint V) None = Normal s
                /\ spec_parse_signed 10 s = Some V)
  /\ (exists s, toHex (of_bigint V) prefix = Normal s
                /\ spec_parse_signed 16 (spec_strip_marker (lit "0x") s) = Some V)
  /\ (exists s, toBinary (of_bigint V) prefix = Normal s
                /\ spec_parse_signed 2 (spec_strip_marker (lit "0b") s) = Some V)
  /\ (exists s, toOctal (of_bigint V) prefix = Normal s
                /\ spec_parse_signed 8 (spec_strip_marker (lit "0o") s) = Some V).
Proof.
  intros Hr. split; [|split; [|split; [|split]]].
  - eexists. split; [apply toString_in_range; exact Hr|].
    apply integer_toString_parse; exact Hr.
  - eexists. split; [apply (toString_in_range V 10); lia|].
    apply integer_toString_parse; lia.
  - eexists. split; [apply toHex_unfolded|].
    destruct (prefix_or_default prefix).
    + change (spec_strip_marker (lit "0x") (lit "0x" ++ integer_toString V 16))
        with (integer_toString V 16).
      apply integer_toString_parse; lia.
    + change (lit "0x") with [48; 120].
      rewrite unprefixed_has_no_marker by (try apply x_not_hex; lia).
      apply integer_toString_parse; lia.
  - eexists. split; [apply toBinary_unfolded|].
    destruct (prefix_or_default prefix).
    + change (spec_strip_marker (lit "0b") (lit "0b" ++ integer_toString V 2))
        with (integer_toString V 2).
      apply integer_toString_parse; lia.
    + change (lit "0b") with [48; 98].
      rewrite unprefixed_has_no_marker by (try apply b_not_binary; lia).
      apply integer_toString_parse; lia.
  - eexists. split; [apply toOctal_unfolded|].
    destruct (prefix_or_default prefix).
    + change (spec_strip_marker (lit "0o") (lit "0o" ++ integer_toString V 8))
        with (integer_toString V 8).
      apply integer_toString_parse; lia.
    + change (lit "0o") with [48; 111].
      rewrite unprefixed_has_no_marker by (try apply o_not_octal; lia).
      apply integer_toString_parse; lia.
Qed.

Lemma renderings_round_trip_witness :
  2 <= 36 <= 36
  /\ (exists s, toString (of_bigint (-1295)) (Some (NumInt 36)) = Normal s
                /\ spec_parse_signed 36 s = Some (-1295))
  /\ (exists s, toHex (of_bigint (-1295)) (Some true) = Normal s
                /\ spec_parse_signed 16 (spec_strip_marker (lit "0x") s)
                   = Some (-1295)).
Proof.
  assert (Hr : 2 <= 36 <= 36) by lia.
  split; [exact Hr|].
  destruct (renderings_round_trip (-1295) 36 (Some true) Hr)
    as [Hs [_ [Hh _]]].
  split; [exact Hs | exact Hh].
Defined.

(** C4, as the code has it. For every negative bigint V, toHex(true),
    toBinary(true) and toOctal(true) (and the same calls with the flag
    omitted) render the marker prefix first, then a minus sign, then the
    digits of the exact magnitude -V in base 16, 2 and 8: nothing is wrapped
    to a width. *)
Theorem negative_renderings_prefix_then_sign (V : Z) (prefix : option bool) :
  V < 0 ->
  prefix_or_default prefix = true ->
  (toHex (of_bigint V) prefix
   = Normal (lit "0x" ++ lit "-" ++ magnitude_digits 16 (- V))
   /\ parse_nonempty 16 (magnitude_digits 16 (- V)) = Some (- V))
  /\ (toBinary (of_bigint V) prefix
      = Normal (lit "0b" ++ lit "-" ++ magnitude_digits 2 (- V))
      /\ parse_nonempty 2 (magnitude_digits 2 (- V)) = Some (- V))
  /\ (toOctal (of_bigint V) prefix
      = Normal (lit "0o" ++ lit "-" ++ magnitude_digits 8 (- V))
      /\ parse_nonempty 8 (magnitude_digits 8 (- V)) = Some (- V)).
Proof.
  intros HV Hprefix.
  rewrite toHex_unfolded, toBinary_unfolded, toOctal_unfolded, Hprefix.
  unfold integer_toString. destruct (Z.ltb_spec V 0); [|lia].
  repeat split; apply magnitude_digits_parse; lia.
Qed.

Lemma negative_renderings_prefix_then_sign_witness :
  toHex (of_bigint (-255)) None = Normal (lit "0x-ff")
  /\ toBinary (of_bigint (-255)) None = Normal (lit "0b-11111111")
  /\ toOctal (of_bigint (-255)) None = Normal (lit "0o-377").
Proof.
  assert (Hneg : -255 < 0) by lia.
  destruct (negative_renderings_prefix_then_sign (-255) None Hneg eq_refl)
    as [[Hh _] [[Hb _] [Ho _]]].
  split; [exact Hh | split; [exact Hb | exact Ho]].
Defined.

(** toHex of -255 with the prefix enabled is the text 0x-ff: the prefix comes
    before the minus sign, so the text is not -0xff. *)
Lemma toHex_minus_255_is_not_sign_first :
  toHex (of_bigint (-255)) (Some true) = Normal (lit "0x-ff")
  /\ toHex (of_bigint (-255)) (Some true) <> Normal (lit "-0xff").
Proof. split; [vm_compute; reflexivity | vm_compute; discriminate]. Qed.

(** ** stringToBigInt: from bytes to the integer *)

Lemma all_bytes_pad_to_hex_pair :
  forallb (fun n => js_string_eqb
                      (padStart (byte_toString16 (Z.of_nat n)) 2 (lit "0"))
                      (hex_pair (Z.of_nat n)))
          (seq 0 256) = true.
Proof. vm_compute. reflexivity. Qed.

(** [byte.toString(16).padStart(2, "0")] is the two-digit pair of the byte. *)
Lemma padStart_byte (b : Z) :
  byte_ok b -> padStart (byte_toString16 b) 2 (lit "0") = hex_pair b.
Proof.
  intros Hb. pose proof all_bytes_pad_to_hex_pair as Hall.
  rewrite forallb_forall in Hall.
  specialize (Hall (Z.to_nat b)).
  rewrite Z2Nat.id in Hall by (unfold byte_ok in Hb; lia).
  unfold js_string_eqb in Hall.
  destruct (list_eq_dec Z.eq_dec _ _) as [E|_]; [exact E|].
  assert (In (Z.to_nat b) (seq 0 256)) as Hin
      by (apply in_seq; unfold byte_ok in Hb; lia).
  specialize (Hall Hin). discriminate.
Qed.

Lemma parse_hex_pair (b acc : Z) :
  byte_ok b -> parse_digits 16 (hex_pair b) acc = Some (acc * 256 + b).
Proof.
  intros Hb. unfold byte_ok in Hb. unfold hex_pair.
  pose proof (Z.div_mod b 16 ltac:(lia)) as Hdm.
  pose proof (Z.mod_pos_bound b 16 ltac:(lia)) as Hr.
  change [digit_char (b / 16); digit_char (b mod 16)]
    with ([digit_char (b / 16)] ++ [digit_char (b mod 16)]).
  rewrite parse_digits_app, !parse_digit_char by lia.
  f_equal. lia.
Qed.

Lemma hex_of_bytes_pairs (bytes : list Z) :
  Forall byte_ok bytes -> hex_of_bytes bytes = concat (map hex_pair bytes).
Proof.
  unfold hex_of_bytes, join_empty. intros Hall. f_equal.
  induction Hall as [|b bytes Hb _ IH]; cbn [map]; [reflexivity|].
  rewrite padStart_byte by exact Hb. f_equal. exact IH.
Qed.

Lemma parse_hex_pairs (bytes : list Z) (acc : Z) :
  Forall byte_ok bytes ->
  parse_digits 16 (concat (map hex_pair bytes)) acc
  = Some (fold_left (fun a b => a * 256 + b) bytes acc).
Proof.
  intros Hall. revert acc.
  induction Hall as [|b bytes Hb _ IH]; intros acc; cbn [map concat fold_left].
  - reflexivity.
  - rewrite parse_digits_app, parse_hex_pair by exact Hb. apply IH.
Qed.

(** *** No character of the hexadecimal text is white space *)

Lemma alphanumeric_plain (u : Z) : 45 <= u <= 122 -> plain u.
Proof.
  intros Hu. unfold plain, is_white_space. cbn [existsb].
  repeat (match goal with
          | |- context [Z.eqb u ?k] => destruct (Z.eqb_spec u k); [lia|]
          end).
  reflexivity.
Qed.

Lemma digit_char_mod_plain (radix n : Z) :
  2 <= radix <= 36 -> plain (digit_char (n mod radix)).
Proof.
  intros Hr. apply alphanumeric_plain.
  pose proof (Z.mod_pos_bound n radix ltac:(lia)).
  unfold digit_char. destruct (Z.ltb_spec (n mod radix) 10); lia.
Qed.

Lemma integer_toString_plain (x radix : Z) :
  2 <= radix <= 36 -> Forall plain (integer_toString x radix).
Proof.
  intros Hr.
  assert (Hd : forall n, Forall plain (magnitude_digits radix n)).
  { intros n. eapply Forall_impl; [|apply magnitude_digits_digits; exact Hr].
    intros u Hu. apply alphanumeric_plain.
    apply (digit_is_alphanumeric radix Hr) in Hu. lia. }
  unfold integer_toString. destruct (x <? 0); [|apply Hd].
  constructor; [apply alphanumeric_plain; lia | apply Hd].
Qed.

Lemma integer_toString_nonempty (x radix : Z) :
  2 <= radix <= 36 -> integer_toString x radix <> [].
Proof.
  intros Hr. unfold integer_toString.
  destruct (x <? 0); [discriminate | apply magnitude_digits_nonempty; exact Hr].
Qed.

Lemma padStart_plain (s fill : js_string) (n : nat) :
  Forall plain s -> Forall plain fill -> Forall plain (padStart s n fill).
Proof.
  intros Hs Hf. unfold padStart. apply Forall_app. split; [|exact Hs].
  set (k := (n - length s)%nat).
  assert (Hall : Forall plain (concat (repeat fill k))).
  { apply Forall_concat, Forall_forall. intros part Hpart.
    apply repeat_spec in Hpart. subst part. exact Hf. }
  rewrite <- (firstn_skipn k (concat (repeat fill k))) in Hall.
  apply Forall_app in Hall. apply Hall.
Qed.

Lemma padStart_nonempty (s fill : js_string) (n : nat) :
  s <> [] -> padStart s n fill <> [].
Proof.
  intros Hs H. unfold padStart in H. apply app_eq_nil in H.
  destruct H as [_ H]. contradiction.
Qed.

Lemma hex_of_bytes_plain (bytes : list Z) : Forall plain (hex_of_bytes bytes).
Proof.
  unfold hex_of_bytes, join_empty.
  induction bytes as [|b bytes IH]; cbn [map concat]; [constructor|].
  apply Forall_app. split; [|exact IH].
  apply padStart_plain.
  - apply integer_toString_plain. lia.
  - repeat constructor.
Qed.

Lemma hex_of_bytes_nonempty (bytes : list Z) :
  bytes <> [] -> hex_of_bytes bytes <> [].
Proof.
  destruct bytes as [|b bytes]; [contradiction|]. intros _.
  unfold hex_of_bytes, join_empty. cbn [map concat]. intros H.
  apply app_eq_nil in H. destruct H as [H _]. revert H.
  apply padStart_nonempty, integer_toString_nonempty. lia.
Qed.

Lemma trim_end_plain (s : js_string) : Forall plain s -> trim_end s = s.
Proof.
  unfold trim_end. intros Hall.
  induction Hall as [|u s Hu _ IH]; cbn [fold_right]; [reflexivity|].
  rewrite IH. unfold plain in Hu. rewrite Hu. destruct s; reflexivity.
Qed.

(** [BigInt("0x" + hex)] reads the digits after the marker. *)
Lemma StringToBigInt_hex (hex : js_string) :
  Forall plain hex ->
  StringToBigInt (lit "0x" ++ hex) = parse_nonempty 16 hex.
Proof.
  intros Hplain. unfold StringToBigInt.
  change (lit "0x" ++ hex) with (48 :: 120 :: hex).
  change (trim_start (48 :: 120 :: hex)) with (48 :: 120 :: hex).
  rewrite trim_end_plain; [reflexivity|].
  constructor; [apply alphanumeric_plain; lia|].
  constructor; [apply alphanumeric_plain; lia | exact Hplain].
Qed.

(** ** TextEncoder: the bytes of a string *)

Lemma lor_below_pow2 (a b n : Z) :
  0 <= a < 2 ^ n -> 0 <= b < 2 ^ n -> 0 <= Z.lor a b < 2 ^ n.
Proof.
  intros Ha Hb.
  assert (Hnn : 0 <= Z.lor a b) by (apply Z.lor_nonneg; lia).
  split; [exact Hnn|].
  destruct (Z.eq_dec (Z.lor a b) 0) as [->|Hnz]; [lia|].
  destruct (Z.lt_ge_cases n 0) as [Hn|Hn].
  { rewrite Z.pow_neg_r in Ha by exact Hn. lia. }
  apply Z.log2_lt_pow2; [lia|].
  rewrite Z.log2_lor by lia.
  assert (Hlog : forall c, 0 <= c < 2 ^ n -> c <> 0 -> Z.log2 c < n).
  { intros c Hc Hcz. apply Z.log2_lt_pow2; lia. }
  destruct (Z.eq_dec a 0) as [->|Haz]; destruct (Z.eq_dec b 0) as [->|Hbz].
  - cbn in Hnz. contradiction.
  - rewrite Z.max_r by apply Z.log2_nonneg. apply Hlog; lia.
  - rewrite Z.max_l by apply Z.log2_nonneg. apply Hlog; lia.
  - apply Z.max_lub_lt; apply Hlog; lia.
Qed.

Lemma continuation_byte_ok (x : Z) : byte_ok (Z.lor 128 (Z.land x 63)).
Proof.
  unfold byte_ok. change 63 with (Z.ones 6). rewrite Z.land_ones by lia.
  pose proof (Z.mod_pos_bound x (2 ^ 6) ltac:(lia)).
  apply (lor_below_pow2 128 (x mod 2 ^ 6) 8); lia.
Qed.

Lemma shiftr_below (cp n m : Z) :
  0 <= n -> 0 <= cp < m * 2 ^ n -> 0 <= Z.shiftr cp n < m.
Proof.
  intros Hn Hcp. rewrite Z.shiftr_div_pow2 by exact Hn.
  assert (0 < 2 ^ n) by (apply Z.pow_pos_nonneg; lia).
  split; [apply Z.div_pos; lia | apply Z.div_lt_upper_bound; lia].
Qed.

Lemma utf8_encode_scalar_bytes (cp : Z) :
  scalar_ok cp -> Forall byte_ok (utf8_encode_scalar cp).
Proof.
  unfold scalar_ok. intros Hcp. unfold utf8_encode_scalar.
  destruct (Z.leb_spec cp 127); [repeat constructor; unfold byte_ok; lia|].
  destruct (Z.leb_spec cp 2047); [|destruct (Z.leb_spec cp 65535)];
    cbn [continuation_bytes seq rev app map];
    (constructor;
     [| repeat (constructor; [apply continuation_byte_ok|]); constructor ]);
    unfold byte_ok.
  - change (6 * Z.of_nat 1) with 6.
    pose proof (shiftr_below cp 6 32 ltac:(lia) ltac:(lia)). lia.
  - change (6 * Z.of_nat 2) with 12.
    pose proof (shiftr_below cp 12 16 ltac:(lia) ltac:(lia)). lia.
  - change (6 * Z.of_nat 3) with 18.
    pose proof (shiftr_below cp 18 8 ltac:(lia) ltac:(lia)). lia.
Qed.

Lemma list_pair_induction {A} (P : list A -> Prop) :
  P [] ->
  (forall a, P [a]) ->
  (forall a b l, P l -> P (b :: l) -> P (a :: b :: l)) ->
  forall l, P l.
Proof.
  intros Hnil Hone Hstep l.
  assert (H : P l /\ forall a, P (a :: l)); [|apply H].
  induction l as [|b l [IHl IHcons]]; split; auto.
Qed.

Lemma to_scalar_values_ok (s : js_string) :
  js_string_ok s -> Forall scalar_ok (to_scalar_values s).
Proof.
  unfold js_string_ok.
  induction s as [| a | a b l IHl IHbl] using list_pair_induction; intros Hs.
  - constructor.
  - inversion Hs as [|? ? Ha _]; subst. unfold code_unit_ok in Ha.
    cbn [to_scalar_values].
    destruct (is_lead_surrogate a); [|destruct (is_trail_surrogate a)];
      repeat constructor; unfold scalar_ok; lia.
  - inversion Hs as [|? ? Ha Hbl]; subst.
    inversion Hbl as [|? ? Hb Hl]; subst.
    unfold code_unit_ok in Ha, Hb.
    change (to_scalar_values (a :: b :: l))
      with (if is_lead_surrogate a
            then if is_trail_surrogate b
                 then (65536 + (a - 55296) * 1024 + (b - 56320)) :: to_scalar_values l
                 else 65533 :: to_scalar_values (b :: l)
            else if is_trail_surrogate a
                 then 65533 :: to_scalar_values (b :: l)
                 else a :: to_scalar_values (b :: l)).
    destruct (is_lead_surrogate a) eqn:Elead.
    + destruct (is_trail_surrogate b) eqn:Etrail.
      * constructor; [|apply IHl; exact Hl].
        unfold is_lead_surrogate in Elead. unfold is_trail_surrogate in Etrail.
        apply andb_prop in Elead, Etrail. unfold scalar_ok. lia.
      * constructor; [unfold scalar_ok; lia | apply IHbl; exact Hbl].
    + destruct (is_trail_surrogate a);
        (constructor; [unfold scalar_ok; lia | apply IHbl; exact Hbl]).
Qed.

Lemma TextEncoder_encode_bytes (encoder : TextEncoder) (s : js_string) :
  js_string_ok s -> Forall byte_ok (TextEncoder_encode encoder s).
Proof.
  intros Hs. unfold TextEncoder_encode, utf8_encode. apply Forall_flat_map.
  eapply Forall_impl; [|apply to_scalar_values_ok; exact Hs].
  intros cp. apply utf8_encode_scalar_bytes.
Qed.

Lemma utf8_encode_scalar_nonempty (cp : Z) : utf8_encode_scalar cp <> [].
Proof.
  unfold utf8_encode_scalar. destruct (cp <=? 127); [discriminate|].
  destruct (cp <=? 2047); [discriminate|]. destruct (cp <=? 65535); discriminate.
Qed.

Lemma to_scalar_values_nonempty (s : js_string) :
  s <> [] -> to_scalar_values s <> [].
Proof.
  destruct s as [|u rest]; [contradiction|]. intros _. cbn [to_scalar_values].
  destruct (is_lead_surrogate u).
  - destruct rest as [|t rest']; [discriminate|].
    destruct (is_trail_surrogate t); discriminate.
  - destruct (is_trail_surrogate u); discriminate.
Qed.

Lemma TextEncoder_encode_nonempty (encoder : TextEncoder) (s : js_string) :
  s <> [] -> TextEncoder_encode encoder s <> [].
Proof.
  intros Hs. unfold TextEncoder_encode, utf8_encode.
  pose proof (to_scalar_values_nonempty s Hs) as Hne.
  destruct (to_scalar_values s) as [|cp cps]; [contradiction|].
  cbn [flat_map]. intros H. apply app_eq_nil in H. destruct H as [H _].
  exact (utf8_encode_scalar_nonempty cp H).
Qed.

(** ** stringToBigInt *)

Section SeedEncoder.
Context `{HostNumberToString}.

Lemma stringToBigInt_nonempty (seed : js_string) (encoder : option TextEncoder) :
  seed <> [] ->
  stringToBigInt (VString seed) encoder
  = match parse_digits 16 (hex_of_bytes (utf8_encode seed)) 0 with
    | Some n => Normal (of_bigint n)
    | None => Throw SyntaxError
    end.
Proof.
  intros Hne. unfold stringToBigInt.
  destruct seed as [|u rest]; [contradiction|].
  destruct (Z.eqb_spec (Z.of_nat (length (u :: rest))) 0) as [E|_];
    [cbn [length] in E; lia|].
  change (join_empty (map _ (TextEncoder_encode _ (u :: rest))))
    with (hex_of_bytes (utf8_encode (u :: rest))).
  unfold BigInt_of_string.
  rewrite StringToBigInt_hex by apply hex_of_bytes_plain.
  pose proof (hex_of_bytes_nonempty (utf8_encode (u :: rest))
                (TextEncoder_encode_nonempty new_TextEncoder (u :: rest) Hne))
    as Hhex.
  unfold parse_nonempty.
  destruct (hex_of_bytes (utf8_encode (u :: rest))) as [|c cs] eqn:E;
    [contradiction|].
  destruct (parse_digits 16 (c :: cs) 0); reflexivity.
Qed.

Lemma stringToBigInt_value (seed : js_string) (encoder : option TextEncoder) :
  js_string_ok seed ->
  stringToBigInt (VString seed) encoder
  = Normal (of_bigint (big_endian_256 (utf8_encode seed))).
Proof.
  intros Hok. destruct seed as [|u rest]; [reflexivity|].
  rewrite stringToBigInt_nonempty by discriminate.
  pose proof (TextEncoder_encode_bytes new_TextEncoder (u :: rest) Hok) as Hbytes.
  unfold TextEncoder_encode in Hbytes.
  rewrite hex_of_bytes_pairs, parse_hex_pairs by exact Hbytes.
  reflexivity.
Qed.

End SeedEncoder.

(** C3. For every string s, stringToBigInt(s) returns an instance whose
    value is the big-endian base-256 reading of the UTF-8 bytes of s, which
    is also the base-16 reading of their two-digit pairs put side by side;
    the empty string gives 0, the text A gives 65 and AB gives 0x4142. *)
Theorem stringToBigInt_reads_utf8_big_endian `{HostNumberToString}
  (s : js_string) (encoder : option TextEncoder) :
  js_string_ok s ->
  (exists c,
      stringToBigInt (VString s) encoder = Normal c
      /\ toBigInt c = big_endian_256 (utf8_encode s)
      /\ parse_digits 16 (concat (map hex_pair (utf8_encode s))) 0
         = Some (toBigInt c))
  /\ stringToBigInt (VString []) encoder = Normal (of_bigint 0)
  /\ seed_value (lit "A") encoder = Normal 65
  /\ seed_value (lit "AB") encoder = Normal 16706.
Proof.
  intros Hok. split; [|repeat split; destruct encoder; reflexivity].
  exists (of_bigint (big_endian_256 (utf8_encode s))).
  split; [apply stringToBigInt_value; exact Hok|].
  split; [reflexivity|].
  cbn [toBigInt value of_bigint].
  apply parse_hex_pairs, (TextEncoder_encode_bytes new_TextEncoder), Hok.
Qed.

Lemma stringToBigInt_reads_utf8_big_endian_witness :
  js_string_ok [104; 233; 55357; 56960]
  /\ exists c,
      stringToBigInt (VString [104; 233; 55357; 56960]) None = Normal c
      /\ toBigInt c = big_endian_256 [104; 195; 169; 240; 159; 154; 128].
Proof.
  assert (Hok : js_string_ok [104; 233; 55357; 56960])
    by (repeat constructor; unfold code_unit_ok; lia).
  split; [exact Hok|].
  destruct (stringToBigInt_reads_utf8_big_endian
              [104; 233; 55357; 56960] None Hok) as [[c [Hc [Hv _]]] _].
  exists c. split; [exact Hc | exact Hv].
Defined.

Lemma stringToBigInt_using_builtin `{HostNumberToString}
  (seed : js_value) (encoder : option TextEncoder) :
  stringToBigInt_using seed (option_map builtin_encoder encoder)
  = stringToBigInt seed encoder.
Proof. destruct seed, encoder; reflexivity. Qed.

(** With an encoder object, the result is a function of the bytes its
    [encode] returns for the seed. *)
Lemma stringToBigInt_using_bytes `{HostNumberToString}
  (s : js_string) (A B : option encoder_object) :
  encode_method (match A with Some e => e | None => builtin_encoder new_TextEncoder end) s
  = encode_method (match B with Some e => e | None => builtin_encoder new_TextEncoder end) s ->
  stringToBigInt_using (VString s) A = stringToBigInt_using (VString s) B.
Proof.
  intros Hbytes. unfold stringToBigInt_using.
  destruct (Z.of_nat (length s) =? 0); [reflexivity|].
  cbv zeta. rewrite Hbytes. reflexivity.
Qed.

(** C9, as the code has it. For every string s and any two encoder objects
    A and B whose encode returns the UTF-8 bytes of s, as that of every
    instance of the built-in TextEncoder does, stringToBigInt gives the same
    result with A, with B and with no encoder at all: for a well-formed
    sequence of code units, the big-endian reading of those bytes. *)
Theorem encoder_independence_of_utf8_encoders `{HostNumberToString}
  (s : js_string) (A B : encoder_object) :
  encode_method A s = utf8_encode s ->
  encode_method B s = utf8_encode s ->
  (seed_value_using s (Some A) = seed_value_using s (Some B)
   /\ seed_value_using s (Some B) = seed_value_using s None
   /\ stringToBigInt_using (VString s) (Some A)
      = stringToBigInt_using (VString s) (Some B)
   /\ stringToBigInt_using (VString s) (Some B)
      = stringToBigInt_using (VString s) None)
  /\ (forall e e' : TextEncoder,
         encode_method (builtin_encoder e) s = utf8_encode s
         /\ seed_value_using s (Some (builtin_encoder e))
            = seed_value_using s (Some (builtin_encoder e'))
         /\ seed_value_using s (Some (builtin_encoder e)) = seed_value_using s None
         /\ seed_value_using s (Some (builtin_encoder e)) = seed_value s (Some e)
         /\ seed_value_using s None = seed_value s None)
  /\ (js_string_ok s ->
      seed_value_using s (Some A) = Normal (big_endian_256 (utf8_encode s))).
Proof.
  intros HA HB.
  assert (HAB : stringToBigInt_using (VString s) (Some A)
                = stringToBigInt_using (VString s) (Some B)).
  { apply stringToBigInt_using_bytes. rewrite HA, HB. reflexivity. }
  assert (HBN : stringToBigInt_using (VString s) (Some B)
                = stringToBigInt_using (VString s) None).
  { apply stringToBigInt_using_bytes. rewrite HB. reflexivity. }
  split; [|split].
  - unfold seed_value_using. rewrite HAB, HBN. repeat split; reflexivity.
  - intros e e'. split; [reflexivity|].
    unfold seed_value_using, seed_value.
    rewrite <- !stringToBigInt_using_builtin. cbn [option_map].
    rewrite (stringToBigInt_using_bytes s (Some (builtin_encoder e))
               (Some (builtin_encoder e')) eq_refl).
    rewrite (stringToBigInt_using_bytes s (Some (builtin_encoder e')) None eq_refl).
    repeat split; reflexivity.
  - intros Hok. unfold seed_value_using. rewrite HAB, HBN.
    change (@None encoder_object) with (option_map builtin_encoder None).
    rewrite stringToBigInt_using_builtin, (stringToBigInt_value s None Hok).
    reflexivity.
Qed.

Lemma encoder_independence_of_utf8_encoders_witness :
  encode_method ascii_only_encoder (lit "hello") = utf8_encode (lit "hello")
  /\ encode_method (builtin_encoder {| instance_id := 7 |}) (lit "hello")
     = utf8_encode (lit "hello")
  /\ seed_value_using (lit "hello") (Some ascii_only_encoder)
     = seed_value_using (lit "hello") (Some (builtin_encoder {| instance_id := 7 |}))
  /\ seed_value_using (lit "hello") (Some (builtin_encoder {| instance_id := 7 |}))
     = seed_value_using (lit "hello") None
  /\ seed_value_using (lit "hello") (Some ascii_only_encoder) = Normal 448378203247.
Proof.
  assert (HA : encode_method ascii_only_encoder (lit "hello")
               = utf8_encode (lit "hello")) by reflexivity.
  assert (HB : encode_method (builtin_encoder {| instance_id := 7 |}) (lit "hello")
               = utf8_encode (lit "hello")) by reflexivity.
  split; [exact HA|]. split; [exact HB|].
  destruct (@encoder_independence_of_utf8_encoders sample_host (lit "hello")
              ascii_only_encoder (builtin_encoder {| instance_id := 7 |}) HA HB)
    as [[HAB [HBN _]] [_ Hvalue]].
  split; [exact HAB|]. split; [exact HBN|].
  rewrite Hvalue; [reflexivity|].
  repeat constructor; cbv; discriminate.
Defined.

(** With the upper-casing subclass instance the text a gives 65; with an
    instance of the built-in class, or with no encoder, it gives 97. *)
Lemma subclass_encoder_changes_the_result :
  seed_value_using (lit "a") (Some upper_case_encoder) = Normal 65
  /\ seed_value_using (lit "a") (Some (builtin_encoder new_TextEncoder)) = Normal 97
  /\ seed_value_using (lit "a") None = Normal 97
  /\ seed_value_using (lit "a") (Some upper_case_encoder)
     <> seed_value_using (lit "a") (Some (builtin_encoder new_TextEncoder)).
Proof.
  split; [vm_compute; reflexivity|]. split; [vm_compute; reflexivity|].
  split; [vm_compute; reflexivity|]. vm_compute. discriminate.
Qed.

(** C10. For every string s, a NUL put in front of s does not change the
    result of stringToBigInt; the single NUL and the empty string both give
    0, and two different non-empty strings give the same integer. *)
Theorem leading_NUL_is_invisible `{HostNumberToString}
  (s : js_string) (encoder : option TextEncoder) :
  seed_value (0 :: s) encoder = seed_value s encoder
  /\ seed_value [0] encoder = Normal 0
  /\ seed_value [] encoder = Normal 0
  /\ (exists s1 s2,
         s1 <> [] /\ s2 <> [] /\ s1 <> s2
         /\ seed_value s1 encoder = seed_value s2 encoder).
Proof.
  split; [|split; [reflexivity|split; [reflexivity|]]].
  - destruct s as [|u rest]; [reflexivity|].
    unfold seed_value. rewrite !stringToBigInt_nonempty by discriminate.
    change (utf8_encode (0 :: u :: rest)) with (0 :: utf8_encode (u :: rest)).
    change (hex_of_bytes (0 :: utf8_encode (u :: rest)))
      with (48 :: 48 :: hex_of_bytes (utf8_encode (u :: rest))).
    reflexivity.
  - exists [0], [0; 0].
    split; [discriminate|]. split; [discriminate|]. split; [discriminate|].
    reflexivity.
Qed.

(** ** Errors *)

Section Errors.
Context `{HostNumberToString}.

Lemma constructor_throws_iff (v : js_value) :
  throws (constructor v) <-> typeof v <> "bigint"%string.
Proof.
  unfold throws.
  destruct v as [| |b|n|s|d|z|callable conversion]; cbn [constructor typeof].
  7: { split; [intros [e He]; discriminate | intros Hne; contradiction]. }
  all: split; [intros _; try destruct callable; discriminate | intros _].
  all: try (eexists; reflexivity).
  destruct conversion as [r|e]; eexists; reflexivity.
Qed.

Lemma stringToBigInt_throws_iff (seed : js_value) (encoder : option TextEncoder) :
  js_value_ok seed ->
  throws (stringToBigInt seed encoder) <-> typeof seed <> "string"%string.
Proof.
  unfold throws. intros Hok.
  destruct seed as [| |b|n|s|d|z|callable conversion]; cbn [typeof].
  5: { cbn [js_value_ok] in Hok. rewrite stringToBigInt_value by exact Hok.
       split; [intros [e He]; discriminate | intros Hne; contradiction]. }
  all: split; [intros _; try destruct callable; discriminate | intros _].
  all: cbn [stringToBigInt]; try (eexists; reflexivity).
  destruct conversion as [r|e]; eexists; reflexivity.
Qed.

Lemma constructor_message (v : js_value) (rendering : js_string) :
  typeof v <> "bigint"%string ->
  String_of v = Normal rendering ->
  constructor v
  = Throw (TypeError (lit "Expected a bigint, but received " ++ lit (typeof v)
                      ++ lit ". Value: " ++ rendering)).
Proof.
  intros Hty Hs. destruct v; cbn [constructor typeof] in *;
    try contradiction; rewrite Hs; reflexivity.
Qed.

Lemma stringToBigInt_message
  (seed : js_value) (encoder : option TextEncoder) (rendering : js_string) :
  typeof seed <> "string"%string ->
  String_of seed = Normal rendering ->
  stringToBigInt seed encoder
  = Throw (TypeError (lit "Expected a string, but received " ++ lit (typeof seed)
                      ++ lit ". Value: " ++ rendering)).
Proof.
  intros Hty Hs. destruct seed; cbn [stringToBigInt typeof] in *;
    try contradiction; rewrite Hs; reflexivity.
Qed.

End Errors.

Lemma invoke_returns (this : BigIntCoercion) (m : method) :
  radix_documented m -> returns (invoke this m).
Proof.
  unfold returns. destruct this as [v]. intros Hradix.
  change {| value := v |} with (of_bigint v).
  destruct m; cbn [invoke];
    try (eexists; reflexivity).
  - rewrite toCodePoint_renders. eexists; reflexivity.
  - destruct radix as [n|]; [|eexists; reflexivity].
    cbn [radix_documented] in Hradix. destruct Hradix as [r [Htr Hr]].
    unfold toString, BigInt_prototype_toString, radix_in_range. rewrite Htr.
    destruct (Z.leb_spec 2 r); [|lia]. destruct (Z.leb_spec r 36); [|lia].
    eexists; reflexivity.
Qed.

Lemma toString_undocumented_radix (this : BigIntCoercion) (radix : option number) :
  ~ radix_documented (m_toString radix) ->
  toString this radix = Throw RangeError.
Proof.
  destruct radix as [n|]; [|intros Hno; exfalso; apply Hno; exact I].
  cbn [radix_documented]. intros Hno.
  unfold toString, BigInt_prototype_toString, radix_in_range.
  destruct (truncate n) as [r|]; [|reflexivity].
  destruct (Z.leb_spec 2 r); [|reflexivity].
  destruct (Z.leb_spec r 36); [|reflexivity].
  exfalso. apply Hno. exists r. split; [reflexivity | lia].
Qed.

Lemma invoke_throws_iff (this : BigIntCoercion) (m : method) :
  throws (invoke this m) <-> ~ radix_documented m.
Proof.
  split.
  - intros [e He] Hdoc. destruct (invoke_returns this m Hdoc) as [a Ha].
    rewrite Ha in He. discriminate He.
  - intros Hno.
    destruct m; try (exfalso; apply Hno; exact I).
    cbn [invoke]. rewrite (toString_undocumented_radix this radix Hno).
    exists RangeError. reflexivity.
Qed.

Lemma invoke_raises_only_RangeError
  (this : BigIntCoercion) (m : method) (e : js_error) :
  invoke this m = Throw e ->
  e = RangeError /\ exists radix, m = m_toString (Some radix).
Proof.
  intros He.
  destruct m;
    try (match type of He with
         | invoke _ ?m' = _ =>
             destruct (invoke_returns this m' I) as [a Ha]; rewrite Ha in He;
             discriminate He
         end).
  match goal with rdx : option number |- _ => destruct rdx as [n|] end.
  - split; [|exists n; reflexivity].
    cbn [invoke] in He.
    unfold toString, BigInt_prototype_toString in He.
    destruct (truncate n) as [r|]; [destruct (radix_in_range r)|];
      cbn [bind] in He; inversion He; reflexivity.
  - destruct (invoke_returns this (m_toString None) I) as [a Ha].
    rewrite Ha in He. discriminate He.
Qed.

(** C7, as the code has it. Construction raises exactly when the value is
    not a bigint, and stringToBigInt (with no encoder or an instance of the
    built-in TextEncoder) exactly when the seed is not a string; when the
    offending value has a textual rendering the error is a TypeError whose
    message gives the expected kind, the kind received and that rendering;
    a method of a constructed instance raises exactly when it is toString
    given a radix whose truncation toward zero is not within 2..36 (NaN and
    the infinities included), the error is then a RangeError, and every
    other call returns. *)
Theorem errors_come_from_type_validation `{HostNumberToString} :
  (forall v, throws (constructor v) <-> typeof v <> "bigint"%string)
  /\ (forall seed encoder,
         js_value_ok seed ->
         throws (stringToBigInt seed encoder) <-> typeof seed <> "string"%string)
  /\ (forall v rendering,
         typeof v <> "bigint"%string ->
         String_of v = Normal rendering ->
         constructor v
         = Throw (TypeError (lit "Expected a bigint, but received "
                             ++ lit (typeof v) ++ lit ". Value: " ++ rendering)))
  /\ (forall seed encoder rendering,
         typeof seed <> "string"%string ->
         String_of seed = Normal rendering ->
         stringToBigInt seed encoder
         = Throw (TypeError (lit "Expected a string, but received "
                             ++ lit (typeof seed) ++ lit ". Value: " ++ rendering)))
  /\ (forall this m, radix_documented m -> returns (invoke this m))
  /\ (forall this m, throws (invoke this m) <-> ~ radix_documented m)
  /\ (forall this m e,
         invoke this m = Throw e ->
         e = RangeError /\ exists radix, m = m_toString (Some radix))
  /\ (forall this radix,
         ~ radix_documented (m_toString radix) ->
         toString this radix = Throw RangeError).
Proof.
  split; [exact constructor_throws_iff|].
  split; [exact stringToBigInt_throws_iff|].
  split; [exact constructor_message|].
  split; [exact stringToBigInt_message|].
  split; [exact invoke_returns|].
  split; [exact invoke_throws_iff|].
  split; [exact invoke_raises_only_RangeError|].
  exact toString_undocumented_radix.
Qed.

Lemma errors_come_from_type_validation_witness :
  constructor (VNumber (NumInt 42))
  = Throw (TypeError (lit "Expected a bigint, but received number. Value: 42"))
  /\ stringToBigInt VNull None
     = Throw (TypeError (lit "Expected a string, but received object. Value: null"))
  /\ returns (invoke (of_bigint (-5)) (m_toString (Some (NumFraction 73 1))))
  /\ toString (of_bigint (-5)) (Some (NumFraction 3 1)) = Throw RangeError
  /\ toString (of_bigint (-5)) (Some NumNaN) = Throw RangeError.
Proof.
  destruct (@errors_come_from_type_validation sample_host)
    as [_ [_ [Hc [Hs [Hm [_ [_ Hbad]]]]]]].
  split; [|split; [|split; [|split]]].
  - apply (Hc (VNumber (NumInt 42)) (lit "42")); [discriminate | reflexivity].
  - apply (Hs VNull None (lit "null")); [discriminate | reflexivity].
  - apply Hm. exists 36. split; [reflexivity | lia].
  - apply Hbad. intros [r [E Hr]]. vm_compute in E. injection E as <-. lia.
  - apply Hbad. intros [r [E Hr]]. discriminate E.
Defined.

(** toString with radix 1, or 37, raises a RangeError on a constructed
    instance; and with an encoder object whose encode returns no bytes,
    stringToBigInt raises a SyntaxError on a string seed. *)
Lemma toString_radix_1_raises :
  invoke (of_bigint 5) (m_toString (Some (NumInt 1))) = Throw RangeError
  /\ toString (of_bigint 5) (Some (NumInt 37)) = Throw RangeError
  /\ @stringToBigInt_using sample_host (VString (lit "a")) (Some silent_encoder)
     = Throw SyntaxError.
Proof. repeat split. Qed.

(** ** Predicates *)

(** X1. For every bigint V exactly one of isZero, isPositive and isNegative
    holds; isZero holds exactly at 0, and negating V swaps isPositive and
    isNegative. *)
Theorem sign_predicates_partition (V : Z) :
  ((isZero (of_bigint V) = true /\ isPositive (of_bigint V) = false
    /\ isNegative (of_bigint V) = false)
   \/ (isZero (of_bigint V) = false /\ isPositive (of_bigint V) = true
       /\ isNegative (of_bigint V) = false)
   \/ (isZero (of_bigint V) = false /\ isPositive (of_bigint V) = false
       /\ isNegative (of_bigint V) = true))
  /\ (isZero (of_bigint V) = true <-> V = 0)
  /\ isPositive (of_bigint (- V)) = isNegative (of_bigint V)
  /\ isNegative (of_bigint (- V)) = isPositive (of_bigint V).
Proof.
  unfold isZero, isPositive, isNegative, of_bigint; cbn [value].
  destruct (Z.eqb_spec V 0), (Z.ltb_spec 0 V), (Z.ltb_spec V 0),
    (Z.ltb_spec 0 (- V)), (Z.ltb_spec (- V) 0); try lia;
    (split; [tauto | split; [split; intros; (lia || discriminate || reflexivity)
                            | split; reflexivity]]).
Qed.

Lemma remainder_by_two (V : Z) : (Z.rem V 2 =? 0) = Z.even V.
Proof.
  rewrite Zquot.Zrem_even. destruct (Z.even V) eqn:E; [reflexivity|].
  destruct V; [discriminate E | reflexivity | reflexivity].
Qed.

Lemma isEven_parity (U : Z) : isEven (of_bigint U) = Normal (Z.even U).
Proof.
  unfold isEven, of_bigint, BigInt_remainder; cbn [value bind].
  change (2 =? 0) with false. cbv iota. cbn [bind].
  rewrite remainder_by_two. reflexivity.
Qed.

Lemma isOdd_parity (U : Z) : isOdd (of_bigint U) = Normal (negb (Z.even U)).
Proof.
  unfold isOdd, of_bigint, BigInt_remainder; cbn [value bind].
  change (2 =? 0) with false. cbv iota. cbn [bind].
  rewrite remainder_by_two. reflexivity.
Qed.

(** X2. isEven and isOdd never raise and give the parity of V, for negative
    values as well (where [%] yields -1, not 1); isOdd is the opposite of
    isEven, and both are unchanged by negating V or adding 2. *)
Theorem parity_predicates (V : Z) :
  isEven (of_bigint V) = Normal (Z.even V)
  /\ isOdd (of_bigint V) = Normal (negb (Z.even V))
  /\ isOdd (of_bigint V) = Normal (Z.odd V)
  /\ isEven (of_bigint (- V)) = isEven (of_bigint V)
  /\ isEven (of_bigint (V + 2)) = isEven (of_bigint V)
  /\ isOdd (of_bigint (-3)) = Normal true.
Proof.
  pose proof isEven_parity as He. pose proof isOdd_parity as Ho.
  split; [apply He|]. split; [apply Ho|].
  split; [rewrite Ho, Z.negb_even; reflexivity|].
  split; [rewrite !He, Z.even_opp; reflexivity|].
  split; [rewrite !He, Z.even_add; destruct (Z.even V); reflexivity|].
  reflexivity.
Qed.

(** ** Fixed-width conversions: what they keep of the value *)

Lemma pow2_divides (N M : Z) : 0 <= N <= M -> (2 ^ N | 2 ^ M).
Proof.
  intros H. exists (2 ^ (M - N)).
  rewrite <- Z.pow_add_r by lia. f_equal. lia.
Qed.

Lemma asUintN_narrow (N M V : Z) :
  0 <= N <= M -> BigInt_asUintN N (BigInt_asUintN M V) = BigInt_asUintN N V.
Proof.
  intros H. unfold BigInt_asUintN.
  apply Z.mod_mod_divide, pow2_divides, H.
Qed.

Lemma asUintN_congruent (N a b : Z) :
  0 <= N <= 64 -> a mod 2 ^ 64 = b mod 2 ^ 64 ->
  BigInt_asUintN N a = BigInt_asUintN N b.
Proof.
  intros HN Hab.
  rewrite <- (asUintN_narrow N 64 a), <- (asUintN_narrow N 64 b) by exact HN.
  unfold BigInt_asUintN at 2 4. rewrite Hab. reflexivity.
Qed.

Lemma asIntN_of_asUintN (N V : Z) :
  BigInt_asIntN N V
  = if 2 ^ (N - 1) <=? BigInt_asUintN N V
    then BigInt_asUintN N V - 2 ^ N else BigInt_asUintN N V.
Proof. reflexivity. Qed.

Lemma asIntN_congruent_64 (N a b : Z) :
  0 <= N <= 64 -> a mod 2 ^ 64 = b mod 2 ^ 64 ->
  BigInt_asIntN N a = BigInt_asIntN N b.
Proof.
  intros HN Hab. rewrite !asIntN_of_asUintN.
  rewrite (asUintN_congruent N a b HN Hab). reflexivity.
Qed.

Lemma even_of_low_bits (N V : Z) :
  0 < N -> Z.even (BigInt_asUintN N V) = Z.even V.
Proof.
  intros HN. rewrite !Zdiv.Zeven_mod.
  change (BigInt_asUintN N V mod 2) with (BigInt_asUintN 1 (BigInt_asUintN N V)).
  rewrite asUintN_narrow by lia. reflexivity.
Qed.

Lemma even_asIntN (N V : Z) : 0 < N -> Z.even (BigInt_asIntN N V) = Z.even V.
Proof.
  intros HN. rewrite <- (even_of_low_bits N (BigInt_asIntN N V)) by exact HN.
  unfold BigInt_asUintN at 1. rewrite asIntN_congruent by exact HN.
  apply even_of_low_bits, HN.
Qed.

(** X3. Every exact fixed-width conversion keeps the parity of V (so isEven
    can be read off any of them); the lossy toUint64 does not: at 2^53 + 1 it
    returns an even number. *)
Theorem exact_conversions_keep_parity (V : Z) :
  (exists r, toInt8 (of_bigint V) = NumInt r /\ Z.even r = Z.even V)
  /\ (exists r, toUint8 (of_bigint V) = NumInt r /\ Z.even r = Z.even V)
  /\ (exists r, toInt16 (of_bigint V) = NumInt r /\ Z.even r = Z.even V)
  /\ (exists r, toUint16 (of_bigint V) = NumInt r /\ Z.even r = Z.even V)
  /\ (exists r, toInt32 (of_bigint V) = NumInt r /\ Z.even r = Z.even V)
  /\ (exists r, toUint32 (of_bigint V) = NumInt r /\ Z.even r = Z.even V)
  /\ (exists r, toAbsInt32 (of_bigint V) = NumInt r /\ Z.even r = Z.even V)
  /\ Z.even (toBigInt64 (of_bigint V)) = Z.even V
  /\ Z.even (toBigUint64 (of_bigint V)) = Z.even V
  /\ (exists W r, Z.even W = false
                  /\ toUint64 (of_bigint W) = NumInt r /\ Z.even r = true).
Proof.
  unfold toInt8, toUint8, toInt16, toUint16, toInt32, toUint32, toAbsInt32,
    toBigInt64, toBigUint64, of_bigint; cbn [value].
  repeat match goal with
         | |- _ /\ _ => split
         | |- exists r, Number_of_bigint (BigInt_asIntN ?N _) = _ /\ _ =>
             eexists; split; [apply Number_of_asIntN; lia | apply even_asIntN; lia]
         | |- exists r, Number_of_bigint (BigInt_asUintN ?N V) = _ /\ _ =>
             eexists; split;
             [apply Number_of_asUintN; lia | apply even_of_low_bits; lia]
         end.
  - eexists. split; [apply Number_of_asUintN; lia|].
    rewrite even_of_low_bits by lia.
    destruct (Z.ltb_spec V 0); [apply Z.even_opp | reflexivity].
  - apply even_asIntN; lia.
  - apply even_of_low_bits; lia.
  - exists (2 ^ 53 + 1), (2 ^ 53). repeat split.
Qed.

Lemma asUintN_fixed (N V : Z) :
  0 <= N -> (BigInt_asUintN N V = V <-> 0 <= V <= 2 ^ N - 1).
Proof.
  intros HN. destruct (asUintN_residue N V HN) as [Hr Hb]. split.
  - intros E. rewrite E in Hb. exact Hb.
  - intros HV. unfold BigInt_asUintN. apply Z.mod_small. lia.
Qed.

Lemma asIntN_fixed (N V : Z) :
  0 < N -> (BigInt_asIntN N V = V <-> - 2 ^ (N - 1) <= V <= 2 ^ (N - 1) - 1).
Proof.
  intros HN. destruct (asIntN_twos_complement N V HN) as [Hb [Hlo Hhi]].
  assert (Hd : 2 ^ N = 2 * 2 ^ (N - 1)).
  { replace N with (Z.succ (N - 1)) at 1 by lia. apply Z.pow_succ_r. lia. }
  assert (Hp : 0 < 2 ^ (N - 1)) by (apply Z.pow_pos_nonneg; lia).
  split.
  - intros E. rewrite E in Hb. exact Hb.
  - intros HV. unfold BigInt_asIntN.
    destruct (Z.lt_ge_cases V 0) as [Hneg|Hpos].
    + replace (V mod 2 ^ N) with (V + 2 ^ N).
      * destruct (Z.leb_spec (2 ^ (N - 1)) (V + 2 ^ N)); lia.
      * apply Z.mod_unique with (q := -1); lia.
    + rewrite Z.mod_small by lia.
      destruct (Z.leb_spec (2 ^ (N - 1)) V); lia.
Qed.

Lemma NumInt_eq (a b : Z) : NumInt a = NumInt b <-> a = b.
Proof. split; [intros E; inversion E; reflexivity | intros ->; reflexivity]. Qed.

Lemma toUnsigned_fixed (N V : Z) :
  0 <= N <= 53 ->
  (Number_of_bigint (BigInt_asUintN N V) = NumInt V <-> 0 <= V <= 2 ^ N - 1).
Proof.
  intros HN. rewrite Number_of_asUintN, NumInt_eq by exact HN.
  apply asUintN_fixed. lia.
Qed.

Lemma toSigned_fixed (N V : Z) :
  0 < N <= 53 ->
  (Number_of_bigint (BigInt_asIntN N V) = NumInt V
   <-> - 2 ^ (N - 1) <= V <= 2 ^ (N - 1) - 1).
Proof.
  intros HN. rewrite Number_of_asIntN, NumInt_eq by exact HN.
  apply asIntN_fixed. lia.
Qed.

Lemma toAbsInt32_fixed (V : Z) :
  toAbsInt32 (of_bigint V) = NumInt V <-> 0 <= V <= 2 ^ 31 - 1.
Proof.
  unfold toAbsInt32, of_bigint; cbn [value].
  rewrite Number_of_asUintN, NumInt_eq by lia. split.
  - intros E. destruct (Z.ltb_spec V 0) as [Hneg|Hpos].
    + destruct (asUintN_residue 31 (- V) ltac:(lia)) as [_ Hb]. lia.
    + destruct (asUintN_residue 31 V ltac:(lia)) as [_ Hb]. lia.
  - intros HV. destruct (Z.ltb_spec V 0); [lia|].
    unfold BigInt_asUintN. apply Z.mod_small. lia.
Qed.

(** X4. A value passes through an exact conversion unchanged exactly when it
    lies in the range of that conversion; toAbsInt32 returns V itself exactly
    for 0 <= V <= 2^31 - 1. *)
Theorem conversions_fix_exactly_their_range (V : Z) :
  (toUint8 (of_bigint V) = NumInt V <-> 0 <= V <= 2 ^ 8 - 1)
  /\ (toInt8 (of_bigint V) = NumInt V <-> - 2 ^ 7 <= V <= 2 ^ 7 - 1)
  /\ (toUint16 (of_bigint V) = NumInt V <-> 0 <= V <= 2 ^ 16 - 1)
  /\ (toInt16 (of_bigint V) = NumInt V <-> - 2 ^ 15 <= V <= 2 ^ 15 - 1)
  /\ (toUint32 (of_bigint V) = NumInt V <-> 0 <= V <= 2 ^ 32 - 1)
  /\ (toInt32 (of_bigint V) = NumInt V <-> - 2 ^ 31 <= V <= 2 ^ 31 - 1)
  /\ (toAbsInt32 (of_bigint V) = NumInt V <-> 0 <= V <= 2 ^ 31 - 1)
  /\ (toBigUint64 (of_bigint V) = V <-> 0 <= V <= 2 ^ 64 - 1)
  /\ (toBigInt64 (of_bigint V) = V <-> - 2 ^ 63 <= V <= 2 ^ 63 - 1).
Proof.
  split; [exact (toUnsigned_fixed 8 V ltac:(lia))|].
  split; [exact (toSigned_fixed 8 V ltac:(lia))|].
  split; [exact (toUnsigned_fixed 16 V ltac:(lia))|].
  split; [exact (toSigned_fixed 16 V ltac:(lia))|].
  split; [exact (toUnsigned_fixed 32 V ltac:(lia))|].
  split; [exact (toSigned_fixed 32 V ltac:(lia))|].
  split; [exact (toAbsInt32_fixed V)|].
  split; [exact (asUintN_fixed 64 V ltac:(lia))|].
  exact (asIntN_fixed 64 V ltac:(lia)).
Qed.

Lemma invoke_congruent_64 (a b : Z) (m : method) :
  reads_low_64_bits m = true ->
  a mod 2 ^ 64 = b mod 2 ^ 64 ->
  invoke (of_bigint a) m = invoke (of_bigint b) m.
Proof.
  intros Hm Hab.
  assert (Hu : forall N, 0 <= N <= 64 -> BigInt_asUintN N a = BigInt_asUintN N b)
    by (intros N HN; apply asUintN_congruent; assumption).
  assert (Hs : forall N, 0 <= N <= 64 -> BigInt_asIntN N a = BigInt_asIntN N b)
    by (intros N HN; apply asIntN_congruent_64; assumption).
  assert (He : Z.even a = Z.even b).
  { rewrite <- (even_of_low_bits 64 a), <- (even_of_low_bits 64 b) by lia.
    rewrite (Hu 64) by lia. reflexivity. }
  destruct m; try discriminate Hm; cbn [invoke];
    unfold toInt8, toUint8, toInt16, toUint16, toInt32, toUint32, toInt64,
      toUint64, toBigInt64, toBigUint64, toChar, toUint16, toCodePoint,
      of_bigint; cbn [value];
    rewrite ?(Hs 8), ?(Hu 8), ?(Hs 16), ?(Hu 16), ?(Hs 32), ?(Hu 32),
      ?(Hs 64), ?(Hu 64), ?(Hu 21) by lia;
    try reflexivity.
  - change {| value := a |} with (of_bigint a).
    change {| value := b |} with (of_bigint b).
    rewrite !isEven_parity, He. reflexivity.
  - change {| value := a |} with (of_bigint a).
    change {| value := b |} with (of_bigint b).
    rewrite !isOdd_parity, He. reflexivity.
Qed.

(** X5. The methods that wrap to at most 64 bits, and the parity tests,
    cannot tell apart two values that agree modulo 2^64; so re-wrapping the
    result of toBigInt64 or toBigUint64 and converting again gives what the
    direct conversion gives. toAbsInt32 is not one of them: through
    toBigUint64 the value -1 gives 2^31 - 1 instead of 1. *)
Theorem low_64_bits_decide_wrapping_methods :
  (forall a b m,
      reads_low_64_bits m = true -> a mod 2 ^ 64 = b mod 2 ^ 64 ->
      invoke (of_bigint a) m = invoke (of_bigint b) m)
  /\ (forall V m,
         reads_low_64_bits m = true ->
         invoke (of_bigint (toBigInt64 (of_bigint V))) m = invoke (of_bigint V) m
         /\ invoke (of_bigint (toBigUint64 (of_bigint V))) m
            = invoke (of_bigint V) m)
  /\ toAbsInt32 (of_bigint (toBigUint64 (of_bigint (-1)))) = NumInt (2 ^ 31 - 1)
  /\ toAbsInt32 (of_bigint (-1)) = NumInt 1.
Proof.
  split; [exact invoke_congruent_64|]. split; [|split; reflexivity].
  intros V m Hm. split; apply invoke_congruent_64; try exact Hm.
  - unfold toBigInt64, of_bigint; cbn [value].
    apply (asIntN_congruent 64 V). lia.
  - unfold toBigUint64, of_bigint, BigInt_asUintN; cbn [value].
    apply Z.mod_mod. lia.
Qed.

Lemma low_64_bits_decide_wrapping_methods_witness :
  invoke (of_bigint (2 ^ 64 + 200)) m_toInt8 = invoke (of_bigint 200) m_toInt8
  /\ invoke (of_bigint (toBigUint64 (of_bigint (-7)))) m_toCodePoint
     = invoke (of_bigint (-7)) m_toCodePoint.
Proof.
  destruct low_64_bits_decide_wrapping_methods as [Hcong [Hwrap _]].
  split.
  - apply Hcong; reflexivity.
  - apply (Hwrap (-7) m_toCodePoint). reflexivity.
Defined.

(** ** toChar *)

(** X6. toChar returns exactly one UTF-16 code unit, V mod 2^16, so every
    code unit (a lone surrogate included) is the toChar of itself; toChar and
    toCodePoint agree exactly when V mod 2^21 is below 0x10000, and above it
    toCodePoint has two code units. *)
Theorem toChar_is_the_low_code_unit (V : Z) :
  toChar (of_bigint V) = [V mod 2 ^ 16]
  /\ code_unit_ok (V mod 2 ^ 16)
  /\ (code_unit_ok V -> toChar (of_bigint V) = [V])
  /\ (toCodePoint (of_bigint V) = Normal (toChar (of_bigint V))
      <-> V mod 2 ^ 21 < 65536).
Proof.
  pose proof (Z.mod_pos_bound V (2 ^ 16) ltac:(lia)) as H16.
  pose proof (Z.mod_pos_bound V (2 ^ 21) ltac:(lia)) as H21.
  assert (Hchar : toChar (of_bigint V) = [V mod 2 ^ 16]).
  { unfold toChar, toUint16, String_fromCharCode, of_bigint; cbn [value].
    rewrite Number_of_asUintN by lia. unfold ToUint16, BigInt_asUintN.
    cbn [truncate]. rewrite Z.mod_mod by lia. reflexivity. }
  split; [exact Hchar|]. split; [unfold code_unit_ok; lia|].
  split.
  { unfold code_unit_ok. intros HV. rewrite Hchar, Z.mod_small by lia.
    reflexivity. }
  rewrite Hchar, toCodePoint_renders.
  pose proof (asUintN_narrow 16 21 V ltac:(lia)) as Hnarrow.
  unfold BigInt_asUintN in Hnarrow.
  pose proof (rendered_code_point_range V) as Hrange.
  unfold rendered_code_point in *. cbv zeta in *.
  unfold UTF16EncodeCodePoint.
  destruct (Z.leb_spec (V mod 2 ^ 21) 1114111) as [Hle|Hgt].
  - destruct (Z.leb_spec (V mod 2 ^ 21) 65535) as [Hbmp|Hsup].
    + rewrite <- Hnarrow, (Z.mod_small (V mod 2 ^ 21)) by lia.
      split; [lia | reflexivity].
    + split; [intros E; discriminate E | lia].
  - pose proof (masked_code_point_range (V mod 2 ^ 21) ltac:(lia)) as Hm.
    destruct (Z.leb_spec (Z.land (V mod 2 ^ 21) 1114111) 65535); [lia|].
    split; [intros E; discriminate E | lia].
Qed.

Lemma toChar_is_the_low_code_unit_witness :
  code_unit_ok 55296 /\ toChar (of_bigint 55296) = [55296].
Proof.
  assert (Hu : code_unit_ok 55296) by (unfold code_unit_ok; lia).
  split; [exact Hu|].
  destruct (toChar_is_the_low_code_unit 55296) as [_ [_ [Hself _]]].
  exact (Hself Hu).
Defined.

(** ** Conversions to Number *)

(** Above 2^53, [Number(x)] keeps the 53 leading bits [q] of the magnitude
    and rounds on the rest [r]. *)
Lemma Number_of_bigint_large (x : Z) :
  2 ^ 53 <= Z.abs x ->
  exists e q r,
    e = Z.log2 (Z.abs x) - 52 /\ 1 <= e
    /\ Z.abs x = q * 2 ^ e + r /\ 0 <= r < 2 ^ e
    /\ 2 ^ 52 <= q < 2 ^ 53
    /\ Number_of_bigint x
       = (let q' := if (2 ^ (e - 1) <? r) || ((r =? 2 ^ (e - 1)) && Z.odd q)
                    then q + 1 else q in
          if 2 ^ 1024 <=? q' * 2 ^ e then NumInfinity (x <? 0)
          else NumInt (Z.sgn x * (q' * 2 ^ e))).
Proof.
  intros Hbig. set (a := Z.abs x) in *.
  assert (Ha : 0 < a) by lia.
  pose proof (Z.log2_spec a Ha) as [Hlo Hhi].
  assert (HL : 53 <= Z.log2 a) by (apply Z.log2_le_pow2; lia).
  set (L := Z.log2 a) in *.
  exists (L - 52), (a / 2 ^ (L - 52)), (a mod 2 ^ (L - 52)).
  assert (Hpe : 0 < 2 ^ (L - 52)) by (apply Z.pow_pos_nonneg; lia).
  assert (HpL : 2 ^ L = 2 ^ 52 * 2 ^ (L - 52)).
  { rewrite <- Z.pow_add_r by lia. f_equal. lia. }
  assert (HpL1 : 2 ^ Z.succ L = 2 ^ 53 * 2 ^ (L - 52)).
  { rewrite <- Z.pow_add_r by lia. f_equal. lia. }
  split; [reflexivity|]. split; [lia|].
  split; [rewrite Z.mul_comm; apply Z.div_mod; lia|].
  split; [apply Z.mod_pos_bound; lia|].
  split.
  { split; [apply Z.div_le_lower_bound; lia | apply Z.div_lt_upper_bound; lia]. }
  unfold Number_of_bigint. fold a.
  destruct (Z.ltb_spec a (2 ^ 53)); [lia|]. fold L. cbv zeta.
  rewrite Z.shiftr_div_pow2, Z.land_ones by lia.
  rewrite (Z.shiftl_mul_pow2 1 (L - 52 - 1)), Z.mul_1_l by lia.
  rewrite Z.shiftl_mul_pow2 by lia. reflexivity.
Qed.

Lemma Number_of_bigint_opp (x : Z) :
  Number_of_bigint (- x) = number_opp (Number_of_bigint x).
Proof.
  unfold Number_of_bigint. rewrite Z.abs_opp.
  destruct (Z.ltb_spec (Z.abs x) (2 ^ 53)); [reflexivity|]. cbv zeta.
  rewrite Z.sgn_opp.
  replace (- x <? 0) with (negb (x <? 0))
    by (destruct (Z.ltb_spec x 0), (Z.ltb_spec (- x) 0); try lia; reflexivity).
  match goal with |- context [2 ^ 1024 <=? ?m] => destruct (2 ^ 1024 <=? m) end;
    cbn [number_opp]; [reflexivity | f_equal; lia].
Qed.

(** The rounding error of [Number(x)] for a magnitude below 2^n. *)
Lemma Number_of_bigint_near (x n : Z) :
  53 <= n <= 1023 -> Z.abs x < 2 ^ n ->
  exists m, Number_of_bigint x = NumInt m /\ Z.abs (m - x) <= 2 ^ (n - 54).
Proof.
  intros Hn Hx.
  destruct (Z.lt_ge_cases (Z.abs x) (2 ^ 53)) as [Hsmall|Hbig].
  { exists x. split; [apply Number_of_bigint_exact; exact Hsmall|].
    replace (x - x) with 0 by lia. cbn [Z.abs]. apply Z.pow_nonneg. lia. }
  destruct (Number_of_bigint_large x Hbig)
    as [e [q [r [He [He1 [Ha [Hr [Hq Hnum]]]]]]]].
  assert (HL : Z.log2 (Z.abs x) < n) by (apply Z.log2_lt_pow2; lia).
  assert (Hhalf : 2 ^ e = 2 * 2 ^ (e - 1)).
  { replace e with (Z.succ (e - 1)) at 1 by lia. apply Z.pow_succ_r. lia. }
  assert (Hle : 2 ^ (e - 1) <= 2 ^ (n - 54)) by (apply Z.pow_le_mono_r; lia).
  assert (Hpos : 0 < 2 ^ (e - 1)) by (apply Z.pow_pos_nonneg; lia).
  assert (Htop : 2 * 2 ^ n <= 2 ^ 1024).
  { rewrite <- Z.pow_succ_r by lia. apply Z.pow_le_mono_r; lia. }
  assert (Hn54 : 2 ^ (n - 54) < 2 ^ n) by (apply Z.pow_lt_mono_r; lia).
  set (P := 2 ^ (e - 1)) in *. rewrite Hhalf in *.
  set (Q := q * P) in *.
  assert (HQ : q * (2 * P) = 2 * Q) by (unfold Q; ring).
  assert (HQ1 : (q + 1) * (2 * P) = 2 * Q + 2 * P) by (unfold Q; ring).
  rewrite HQ in Ha.
  cbv zeta in Hnum.
  destruct ((P <? r) || ((r =? P) && Z.odd q)) eqn:Eround.
  - assert (Hr' : P <= r).
    { apply orb_prop in Eround. destruct Eround as [E|E].
      - apply Z.ltb_lt in E. lia.
      - apply andb_prop in E. destruct E as [E _]. apply Z.eqb_eq in E. lia. }
    rewrite HQ1 in Hnum.
    destruct (Z.leb_spec (2 ^ 1024) (2 * Q + 2 * P)); [lia|].
    eexists. split; [exact Hnum|].
    destruct x; cbn [Z.sgn Z.abs] in *; lia.
  - assert (Hr' : r <= P).
    { apply orb_false_elim in Eround. destruct Eround as [E _].
      apply Z.ltb_ge in E. exact E. }
    rewrite HQ in Hnum.
    destruct (Z.leb_spec (2 ^ 1024) (2 * Q)); [lia|].
    eexists. split; [exact Hnum|].
    destruct x; cbn [Z.sgn Z.abs] in *; lia.
Qed.

(** X7. toNumber is exact for |V| <= 2^53, commutes with negation, and for
    |V| < 2^n (53 <= n <= 1023) returns an integer within 2^(n-54) of V;
    the first value it changes is 2^53 + 1. *)
Theorem toNumber_exact_then_rounded (V : Z) :
  (Z.abs V <= 2 ^ 53 -> toNumber (of_bigint V) = NumInt V)
  /\ toNumber (of_bigint (- V)) = number_opp (toNumber (of_bigint V))
  /\ (forall n, 53 <= n <= 1023 -> Z.abs V < 2 ^ n ->
        exists m, toNumber (of_bigint V) = NumInt m
                  /\ Z.abs (m - V) <= 2 ^ (n - 54))
  /\ toNumber (of_bigint (2 ^ 53 + 1)) = NumInt (2 ^ 53).
Proof.
  unfold toNumber, of_bigint; cbn [value].
  split; [|split; [apply Number_of_bigint_opp|split; [|reflexivity]]].
  - intros HV. destruct (Z.eq_dec (Z.abs V) (2 ^ 53)) as [E|E].
    + destruct (Z.abs_eq_or_opp V) as [E'|E']; rewrite E' in E.
      * rewrite E. reflexivity.
      * replace V with (- 2 ^ 53) by lia. reflexivity.
    + apply Number_of_bigint_exact. lia.
  - intros n Hn HV. apply Number_of_bigint_near; assumption.
Qed.

Lemma toNumber_exact_then_rounded_witness :
  Z.abs (- 2 ^ 53) <= 2 ^ 53
  /\ toNumber (of_bigint (- 2 ^ 53)) = NumInt (- 2 ^ 53)
  /\ exists m, toNumber (of_bigint (2 ^ 80 + 12345)) = NumInt m
               /\ Z.abs (m - (2 ^ 80 + 12345)) <= 2 ^ (81 - 54).
Proof.
  assert (Hsafe : Z.abs (- 2 ^ 53) <= 2 ^ 53) by (vm_compute; discriminate).
  split; [exact Hsafe|].
  split.
  - destruct (toNumber_exact_then_rounded (- 2 ^ 53)) as [Hexact _].
    exact (Hexact Hsafe).
  - destruct (toNumber_exact_then_rounded (2 ^ 80 + 12345)) as [_ [_ [Hnear _]]].
    apply (Hnear 81); [lia | vm_compute; reflexivity].
Defined.

(** X8. toInt64 and toUint64 always return an integer, never an infinity:
    toUint64 is within 1024 of the exact 64-bit residue and toInt64 within
    512 of the exact signed value; the bound 1024 is reached. *)
Theorem lossy_64_bit_conversions_are_near (V : Z) :
  (exists m, toUint64 (of_bigint V) = NumInt m
             /\ Z.abs (m - toBigUint64 (of_bigint V)) <= 1024)
  /\ (exists m, toInt64 (of_bigint V) = NumInt m
                /\ Z.abs (m - toBigInt64 (of_bigint V)) <= 512)
  /\ toUint64 (of_bigint (2 ^ 63 + 1024)) = NumInt (2 ^ 63).
Proof.
  unfold toUint64, toInt64, toBigUint64, toBigInt64, of_bigint; cbn [value].
  split; [|split; [|reflexivity]].
  - destruct (asUintN_residue 64 V ltac:(lia)) as [_ Hb].
    apply (Number_of_bigint_near _ 64); lia.
  - destruct (asIntN_twos_complement 64 V ltac:(lia)) as [Hb _].
    destruct (Z.eq_dec (BigInt_asIntN 64 V) (- 2 ^ 63)) as [E|E].
    + rewrite E. exists (- 2 ^ 63). split; [reflexivity | vm_compute; discriminate].
    + apply (Number_of_bigint_near _ 63); lia.
Qed.

Lemma Number_of_bigint_finite_or_infinite (x : Z) :
  (exists m, Number_of_bigint x = NumInt m)
  \/ Number_of_bigint x = NumInfinity (x <? 0).
Proof.
  unfold Number_of_bigint. destruct (Z.abs x <? 2 ^ 53); [left; eexists; reflexivity|].
  cbv zeta.
  match goal with |- context [2 ^ 1024 <=? ?m] => destruct (2 ^ 1024 <=? m) end;
    [right; reflexivity | left; eexists; reflexivity].
Qed.

Lemma Number_of_bigint_overflows (x : Z) :
  Number_of_bigint x = NumInfinity (x <? 0) <-> 2 ^ 1024 - 2 ^ 970 <= Z.abs x.
Proof.
  destruct (Z.lt_ge_cases (Z.abs x) (2 ^ 53)) as [Hsmall|Hbig].
  { rewrite Number_of_bigint_exact by exact Hsmall.
    split; [intros E; discriminate E | intros H; exfalso; lia]. }
  destruct (Number_of_bigint_large x Hbig)
    as [e [q [r [He [He1 [Ha [Hr [Hq Hnum]]]]]]]].
  rewrite Hnum. clear Hnum. cbv zeta.
  assert (Hpos : 0 < Z.abs x) by lia.
  pose proof (Z.log2_spec (Z.abs x) Hpos) as [Hlo Hhi].
  set (L := Z.log2 (Z.abs x)) in *.
  assert (Hpe : 0 < 2 ^ e) by (apply Z.pow_pos_nonneg; lia).
  assert (HpL : 2 ^ L = 2 ^ 52 * 2 ^ e).
  { rewrite <- Z.pow_add_r by lia. f_equal. lia. }
  set (q' := if (2 ^ (e - 1) <? r) || ((r =? 2 ^ (e - 1)) && Z.odd q)
             then q + 1 else q).
  assert (Hq' : q <= q' <= q + 1) by (unfold q'; destruct (_ || _); lia).
  assert (Hinf : (if 2 ^ 1024 <=? q' * 2 ^ e
                  then NumInfinity (x <? 0)
                  else NumInt (Z.sgn x * (q' * 2 ^ e))) = NumInfinity (x <? 0)
                 <-> 2 ^ 1024 <= q' * 2 ^ e).
  { destruct (Z.leb_spec (2 ^ 1024) (q' * 2 ^ e)).
    - split; [intros _; assumption | reflexivity].
    - split; [intros E; discriminate E | intros; exfalso; lia]. }
  rewrite Hinf. clear Hinf.
  destruct (Z.lt_trichotomy L 1023) as [Hlt|[Heq|Hgt]].
  - (* below 2^1023: even rounded up, the result is at most 2^1023 *)
    assert (Hsmall : Z.abs x < 2 ^ 1023).
    { eapply Z.lt_le_trans; [exact Hhi|]. apply Z.pow_le_mono_r; lia. }
    assert (Hm : q' * 2 ^ e <= 2 ^ 53 * 2 ^ e)
      by (apply Z.mul_le_mono_nonneg_r; lia).
    assert (Hb : 2 ^ 53 * 2 ^ e <= 2 ^ 1023).
    { rewrite <- Z.pow_add_r by lia. apply Z.pow_le_mono_r; lia. }
    split; intros H; exfalso; lia.
  - (* the top binade: infinite exactly when the 53 leading bits round up to 2^53 *)
    assert (Ee : e = 971) by lia. clear He. subst e.
    change (971 - 1) with 970 in *.
    unfold q' in *. clear q'.
    destruct (Z.ltb_spec (2 ^ 970) r) as [Hhalf|Hhalf];
      destruct (Z.eqb_spec r (2 ^ 970)) as [Heven|Heven];
      cbn [orb andb] in *; try lia.
    + destruct (Z.odd q) eqn:Eodd; [lia|].
      assert (q <> 2 ^ 53 - 1) by (intros ->; discriminate Eodd). lia.
  - (* from 2^1024 on: the leading bits alone are already too large *)
    assert (Hm : 2 ^ 52 * 2 ^ e <= q' * 2 ^ e)
      by (apply Z.mul_le_mono_nonneg_r; lia).
    assert (Hb : 2 ^ 1024 <= 2 ^ L) by (apply Z.pow_le_mono_r; lia).
    split; intros _; lia.
Qed.

(** X9. toNumber overflows to an infinity of the sign of V exactly when
    |V| >= 2^1024 - 2^970, the midpoint above the largest double; below that
    it returns an integer. *)
Theorem toNumber_overflows_to_infinity (V : Z) :
  (toNumber (of_bigint V) = NumInfinity (isNegative (of_bigint V))
   <-> 2 ^ 1024 - 2 ^ 970 <= Z.abs V)
  /\ ((exists m, toNumber (of_bigint V) = NumInt m)
      <-> Z.abs V < 2 ^ 1024 - 2 ^ 970).
Proof.
  unfold toNumber, isNegative, of_bigint; cbn [value].
  pose proof (Number_of_bigint_overflows V) as Hover.
  split; [exact Hover|].
  destruct (Number_of_bigint_finite_or_infinite V) as [[m Hm]|Hinf].
  - split; [|intros _; exists m; exact Hm].
    intros _. destruct (Z.lt_ge_cases (Z.abs V) (2 ^ 1024 - 2 ^ 970)) as [H|H];
      [exact H|].
    apply Hover in H. rewrite Hm in H. discriminate H.
  - split.
    + intros [m Hm]. rewrite Hinf in Hm. discriminate Hm.
    + intros H. apply Hover in Hinf. lia.
Qed.

(** ** toString and the radix *)

(** X10. toString raises, and then a RangeError, exactly when a radix is
    given whose truncation toward zero is not within 2..36 (NaN and the
    infinities included), whatever the value; a fractional radix is
    truncated, so 36.5 renders as 36 does. *)
Theorem toString_raises_on_bad_radix (V : Z) (radix : option number) :
  (throws (toString (of_bigint V) radix)
   <-> ~ radix_documented (m_toString radix))
  /\ (throws (toString (of_bigint V) radix)
      -> toString (of_bigint V) radix = Throw RangeError)
  /\ (forall n r, radix = Some n -> truncate n = Some r -> 2 <= r <= 36 ->
        toString (of_bigint V) radix = Normal (integer_toString V r))
  /\ toString (of_bigint V) (Some NumNaN) = Throw RangeError
  /\ toString (of_bigint V) (Some (NumInfinity false)) = Throw RangeError.
Proof.
  assert (Hok : forall n r, truncate n = Some r -> 2 <= r <= 36 ->
            toString (of_bigint V) (Some n) = Normal (integer_toString V r)).
  { intros n r Htr Hr.
    unfold toString, BigInt_prototype_toString, radix_in_range, of_bigint.
    cbn [value]. rewrite Htr.
    destruct (Z.leb_spec 2 r); [|lia]. destruct (Z.leb_spec r 36); [|lia].
    reflexivity. }
  assert (Hbad : ~ radix_documented (m_toString radix) ->
                 toString (of_bigint V) radix = Throw RangeError).
  { destruct radix as [n|]; [|intros H; exfalso; apply H; exact I].
    cbn [radix_documented]. intros Hno.
    unfold toString, BigInt_prototype_toString, radix_in_range, of_bigint.
    cbn [value]. destruct (truncate n) as [r|]; [|reflexivity].
    destruct (Z.leb_spec 2 r); [|reflexivity].
    destruct (Z.leb_spec r 36); [|reflexivity].
    exfalso. apply Hno. exists r. split; [reflexivity | lia]. }
  assert (Hiff : throws (toString (of_bigint V) radix)
                 <-> ~ radix_documented (m_toString radix)).
  { split.
    - intros [e He] Hdoc. destruct radix as [n|].
      + destruct Hdoc as [r [Htr Hr]]. rewrite (Hok n r Htr Hr) in He.
        discriminate He.
      + discriminate He.
    - intros Hno. exists RangeError. apply Hbad, Hno. }
  split; [exact Hiff|].
  split; [intros Hthrows; apply Hbad, Hiff, Hthrows|].
  split; [intros n r -> Htr Hr; apply Hok; assumption|].
  split; reflexivity.
Qed.

Lemma toString_raises_on_bad_radix_witness :
  toString (of_bigint 1295) (Some (NumFraction 73 1)) = Normal (lit "zz")
  /\ toString (of_bigint 1295) (Some (NumFraction 3 1)) = Throw RangeError.
Proof.
  split.
  - destruct (toString_raises_on_bad_radix 1295 (Some (NumFraction 73 1)))
      as [_ [_ [Hok _]]].
    apply (Hok (NumFraction 73 1) 36); [reflexivity | reflexivity | lia].
  - destruct (toString_raises_on_bad_radix 1295 (Some (NumFraction 3 1)))
      as [Hiff [Hrange _]].
    apply Hrange, Hiff. intros [r [E Hr]]. vm_compute in E.
    injection E as <-. lia.
Defined.

(** ** Feeding a rendering back to BigInt() *)

Lemma magnitude_digits_plain (radix n : Z) :
  2 <= radix <= 36 -> Forall plain (magnitude_digits radix n).
Proof.
  intros Hr. eapply Forall_impl; [|apply magnitude_digits_digits; exact Hr].
  intros u Hu. apply alphanumeric_plain.
  apply (digit_is_alphanumeric radix Hr) in Hu. lia.
Qed.

Lemma StringToBigInt_marked (m2 radix : Z) (ds : js_string) :
  (m2 = 120 /\ radix = 16) \/ (m2 = 98 /\ radix = 2) \/ (m2 = 111 /\ radix = 8) ->
  Forall plain ds ->
  StringToBigInt (48 :: m2 :: ds) = parse_nonempty radix ds.
Proof.
  intros Hm Hplain. unfold StringToBigInt.
  assert (Hm2 : 45 <= m2 <= 122) by (destruct Hm as [[-> _]|[[-> _]|[-> _]]]; lia).
  assert (Hall : Forall plain (48 :: m2 :: ds)).
  { constructor; [apply alphanumeric_plain; lia|].
    constructor; [apply alphanumeric_plain; exact Hm2 | exact Hplain]. }
  assert (Hstart : trim_start (48 :: m2 :: ds) = 48 :: m2 :: ds) by reflexivity.
  rewrite Hstart, trim_end_plain by exact Hall.
  destruct Hm as [[-> ->]|[[-> ->]|[-> ->]]]; reflexivity.
Qed.

Lemma StringToBigInt_decimal (ds : js_string) :
  Forall (fun u => 48 <= u <= 57) ds -> ds <> [] ->
  StringToBigInt ds = parse_nonempty 10 ds.
Proof.
  intros Hall Hne. unfold StringToBigInt.
  assert (Hplain : Forall plain ds).
  { eapply Forall_impl; [|exact Hall]. intros u Hu. cbv beta in Hu.
    apply alphanumeric_plain. lia. }
  destruct ds as [|c1 rest]; [contradiction|].
  assert (Hstart : trim_start (c1 :: rest) = c1 :: rest).
  { inversion Hplain as [|? ? Hc1 _]; subst. cbn [trim_start].
    unfold plain in Hc1. rewrite Hc1. reflexivity. }
  rewrite Hstart, trim_end_plain by exact Hplain.
  inversion Hall as [|? ? Hc1 Hrest]; subst.
  assert (Hcases : c1 = 48 \/ c1 = 49 \/ c1 = 50 \/ c1 = 51 \/ c1 = 52
                   \/ c1 = 53 \/ c1 = 54 \/ c1 = 55 \/ c1 = 56 \/ c1 = 57) by lia.
  destruct Hcases as [->|Hcases];
    [|repeat (destruct Hcases as [->|Hcases]; [reflexivity|]);
      subst c1; reflexivity].
  destruct rest as [|c2 rest]; [reflexivity|].
  inversion Hrest as [|? ? Hc2 _]; subst.
  assert (Hcases : c2 = 48 \/ c2 = 49 \/ c2 = 50 \/ c2 = 51 \/ c2 = 52
                   \/ c2 = 53 \/ c2 = 54 \/ c2 = 55 \/ c2 = 56 \/ c2 = 57) by lia.
  repeat (destruct Hcases as [->|Hcases]; [reflexivity|]).
  subst c2; reflexivity.
Qed.

Lemma StringToBigInt_negative_decimal (ds : js_string) :
  Forall plain ds ->
  StringToBigInt (45 :: ds) = option_map Z.opp (parse_nonempty 10 ds).
Proof.
  intros Hplain. unfold StringToBigInt.
  assert (Hall : Forall plain (45 :: ds))
    by (constructor; [apply alphanumeric_plain; lia | exact Hplain]).
  assert (Hstart : trim_start (45 :: ds) = 45 :: ds) by reflexivity.
  rewrite Hstart, trim_end_plain by exact Hall. reflexivity.
Qed.

Lemma decimal_digits (n : Z) :
  Forall (fun u => 48 <= u <= 57) (magnitude_digits 10 n).
Proof.
  eapply Forall_impl; [|apply (magnitude_digits_digits 10); lia].
  intros u Hu. apply digit_char_bounds in Hu. lia.
Qed.

Lemma BigInt_of_decimal_rendering (V : Z) :
  BigInt_of_string (integer_toString V 10) = Normal V.
Proof.
  unfold BigInt_of_string, integer_toString.
  destruct (Z.ltb_spec V 0).
  - rewrite StringToBigInt_negative_decimal
      by (apply magnitude_digits_plain; lia).
    rewrite magnitude_digits_parse by lia. cbn [option_map]. f_equal. lia.
  - rewrite StringToBigInt_decimal
      by (first [apply decimal_digits | apply magnitude_digits_nonempty; lia]).
    rewrite magnitude_digits_parse by lia. reflexivity.
Qed.

Lemma BigInt_of_marked_rendering (m2 radix V : Z) :
  (m2 = 120 /\ radix = 16) \/ (m2 = 98 /\ radix = 2) \/ (m2 = 111 /\ radix = 8) ->
  BigInt_of_string (48 :: m2 :: integer_toString V radix)
  = if V <? 0 then Throw SyntaxError else Normal V.
Proof.
  intros Hm.
  assert (Hr : 2 <= radix <= 36) by lia.
  unfold BigInt_of_string.
  rewrite (StringToBigInt_marked m2 radix) by
    (first [exact Hm | apply integer_toString_plain; exact Hr]).
  unfold integer_toString. destruct (Z.ltb_spec V 0).
  - reflexivity.
  - rewrite magnitude_digits_parse by lia. reflexivity.
Qed.

(** X11. BigInt() reads the output of toString() back to V for every V, and
    the prefixed output of toHex, toBinary and toOctal back to V for every
    V >= 0; for a negative V the prefixed output (prefix, then minus sign) is
    no BigInt literal and BigInt() raises a SyntaxError. *)
Theorem BigInt_reads_renderings_back (V : Z) :
  BigInt_of_rendering (toString (of_bigint V) None) = Normal V
  /\ (0 <= V ->
      BigInt_of_rendering (toHex (of_bigint V) None) = Normal V
      /\ BigInt_of_rendering (toBinary (of_bigint V) None) = Normal V
      /\ BigInt_of_rendering (toOctal (of_bigint V) None) = Normal V)
  /\ (V < 0 ->
      BigInt_of_rendering (toHex (of_bigint V) None) = Throw SyntaxError
      /\ BigInt_of_rendering (toBinary (of_bigint V) None) = Throw SyntaxError
      /\ BigInt_of_rendering (toOctal (of_bigint V) None) = Throw SyntaxError).
Proof.
  rewrite toHex_unfolded, toBinary_unfolded, toOctal_unfolded.
  change (toString (of_bigint V) None)
    with (toString (of_bigint V) (Some (NumInt 10))).
  rewrite (toString_in_range V 10) by lia.
  cbn [prefix_or_default BigInt_of_rendering bind].
  change (lit "0x" ++ integer_toString V 16) with (48 :: 120 :: integer_toString V 16).
  change (lit "0b" ++ integer_toString V 2) with (48 :: 98 :: integer_toString V 2).
  change (lit "0o" ++ integer_toString V 8) with (48 :: 111 :: integer_toString V 8).
  rewrite !BigInt_of_marked_rendering by tauto.
  split; [apply BigInt_of_decimal_rendering|].
  destruct (Z.ltb_spec V 0); split; intros HV; try lia; repeat split.
Qed.

Lemma BigInt_reads_renderings_back_witness :
  BigInt_of_rendering (toHex (of_bigint 255) None) = Normal 255
  /\ BigInt_of_rendering (toHex (of_bigint (-255)) None) = Throw SyntaxError.
Proof.
  split.
  - destruct (BigInt_reads_renderings_back 255) as [_ [Hpos _]].
    apply Hpos. lia.
  - destruct (BigInt_reads_renderings_back (-255)) as [_ [_ Hneg]].
    apply Hneg. lia.
Defined.

(** ** stringToBigInt: the integer as a number *)

Lemma fold_base_256 (bytes : list Z) (acc : Z) :
  fold_left (fun a b => a * 256 + b) bytes acc
  = acc * 256 ^ Z.of_nat (length bytes) + big_endian_256 bytes.
Proof.
  unfold big_endian_256. revert acc.
  induction bytes as [|b bytes IH]; intros acc; cbn [fold_left length].
  - cbn. lia.
  - rewrite IH, (IH (0 * 256 + b)), Nat2Z.inj_succ, Z.pow_succ_r by lia. ring.
Qed.

Lemma big_endian_256_cons (b : Z) (bytes : list Z) :
  big_endian_256 (b :: bytes)
  = b * 256 ^ Z.of_nat (length bytes) + big_endian_256 bytes.
Proof.
  unfold big_endian_256 at 1. cbn [fold_left]. rewrite fold_base_256. ring.
Qed.

Lemma big_endian_256_app (l1 l2 : list Z) :
  big_endian_256 (l1 ++ l2)
  = big_endian_256 l1 * 256 ^ Z.of_nat (length l2) + big_endian_256 l2.
Proof.
  unfold big_endian_256 at 1. rewrite fold_left_app, fold_base_256.
  reflexivity.
Qed.

Lemma big_endian_256_range (bytes : list Z) :
  Forall byte_ok bytes ->
  0 <= big_endian_256 bytes < 256 ^ Z.of_nat (length bytes).
Proof.
  intros Hall. induction Hall as [|b bytes Hb _ IH].
  - cbn. lia.
  - rewrite big_endian_256_cons. cbn [length].
    rewrite Nat2Z.inj_succ, Z.pow_succ_r by lia.
    unfold byte_ok in Hb.
    assert (0 < 256 ^ Z.of_nat (length bytes)) by (apply Z.pow_pos_nonneg; lia).
    nia.
Qed.

Lemma big_endian_256_zero (bytes : list Z) :
  Forall byte_ok bytes ->
  (big_endian_256 bytes = 0 <-> Forall (eq 0) bytes).
Proof.
  intros Hall. induction Hall as [|b bytes Hb Hbytes IH].
  - split; [constructor | reflexivity].
  - rewrite big_endian_256_cons.
    pose proof (big_endian_256_range bytes Hbytes) as Hr.
    assert (0 < 256 ^ Z.of_nat (length bytes)) by (apply Z.pow_pos_nonneg; lia).
    unfold byte_ok in Hb. split.
    + intros E. assert (b = 0) by nia. subst b.
      constructor; [reflexivity | apply IH; lia].
    + intros Hz. inversion Hz as [|? ? Hb0 Hrest]; subst.
      apply IH in Hrest. lia.
Qed.

Lemma utf8_encode_cons_plain (u : Z) (rest : js_string) :
  is_lead_surrogate u = false ->
  utf8_encode (u :: rest)
  = utf8_encode_scalar (if is_trail_surrogate u then 65533 else u)
    ++ utf8_encode rest.
Proof.
  intros Hlead. unfold utf8_encode. cbn [to_scalar_values]. rewrite Hlead.
  destruct (is_trail_surrogate u); reflexivity.
Qed.

Lemma utf8_encode_cons_pair (u t : Z) (rest : js_string) :
  is_lead_surrogate u = true -> is_trail_surrogate t = true ->
  utf8_encode (u :: t :: rest)
  = utf8_encode_scalar (65536 + (u - 55296) * 1024 + (t - 56320))
    ++ utf8_encode rest.
Proof.
  intros Hlead Htrail. unfold utf8_encode. cbn [to_scalar_values].
  rewrite Hlead, Htrail. reflexivity.
Qed.

Lemma utf8_encode_cons_lone_lead (u : Z) (rest : js_string) :
  is_lead_surrogate u = true -> is_trail_surrogate (hd 0 rest) = false ->
  utf8_encode (u :: rest) = utf8_encode_scalar 65533 ++ utf8_encode rest.
Proof.
  intros Hlead Hnext. unfold utf8_encode. cbn [to_scalar_values].
  rewrite Hlead. destruct rest as [|t rest']; [reflexivity|].
  cbn [hd] in Hnext. rewrite Hnext. reflexivity.
Qed.

Lemma utf8_encode_scalar_zero (cp : Z) :
  Forall (eq 0) (utf8_encode_scalar cp) <-> cp = 0.
Proof.
  unfold utf8_encode_scalar.
  destruct (Z.leb_spec cp 127) as [Hascii|Hhigh].
  - split; [intros H; inversion H; subst; reflexivity
           | intros ->; repeat constructor].
  - assert (Hshift : forall k, 0 <= Z.shiftr cp k)
      by (intros k; apply Z.shiftr_nonneg; lia).
    split; [|lia]. intros H.
    destruct (cp <=? 2047); [|destruct (cp <=? 65535)];
      inversion H as [|? ? Hlead _]; subst;
      match type of Hlead with 0 = Z.shiftr cp ?k + _ =>
        pose proof (Hshift k) end; lia.
Qed.

Lemma utf8_encode_zero (s : js_string) :
  Forall (eq 0) (utf8_encode s) <-> Forall (eq 0) s.
Proof.
  induction s as [| a | a b l IHl IHbl] using list_pair_induction.
  - split; constructor.
  - destruct (is_lead_surrogate a) eqn:Elead.
    + rewrite utf8_encode_cons_lone_lead by (exact Elead || reflexivity).
      unfold is_lead_surrogate in Elead. apply andb_prop in Elead.
      split; intros H; exfalso.
      * apply Forall_app in H. destruct H as [H _].
        apply utf8_encode_scalar_zero in H. discriminate H.
      * inversion H; subst. lia.
    + rewrite utf8_encode_cons_plain by exact Elead.
      rewrite Forall_app, utf8_encode_scalar_zero.
      destruct (is_trail_surrogate a) eqn:Etrail.
      * unfold is_trail_surrogate in Etrail. apply andb_prop in Etrail.
        split; [intros [H _]; discriminate H | intros H; inversion H; subst; lia].
      * split; [intros [-> _]; repeat constructor
               | intros H; inversion H; subst; split; [reflexivity | constructor]].
  - destruct (is_lead_surrogate a) eqn:Elead.
    + assert (Ha : a <> 0).
      { unfold is_lead_surrogate in Elead. apply andb_prop in Elead. lia. }
      destruct (is_trail_surrogate b) eqn:Etrail.
      * rewrite utf8_encode_cons_pair by assumption.
        unfold is_lead_surrogate in Elead. apply andb_prop in Elead.
        unfold is_trail_surrogate in Etrail. apply andb_prop in Etrail.
        rewrite Forall_app, utf8_encode_scalar_zero.
        split; [intros [H _]; lia | intros H; inversion H; subst; lia].
      * rewrite utf8_encode_cons_lone_lead by assumption.
        rewrite Forall_app, utf8_encode_scalar_zero.
        split; [intros [H _]; discriminate H
               | intros H; inversion H; subst; contradiction].
    + rewrite utf8_encode_cons_plain by exact Elead.
      rewrite Forall_app, utf8_encode_scalar_zero, IHbl.
      destruct (is_trail_surrogate a) eqn:Etrail.
      * unfold is_trail_surrogate in Etrail. apply andb_prop in Etrail.
        split; [intros [H _]; discriminate H | intros H; inversion H; subst; lia].
      * split; [intros [-> H]; constructor; [reflexivity | exact H]
               | intros H; inversion H; subst; split; [reflexivity | assumption]].
Qed.

(** X12. For every string of 16-bit code units stringToBigInt returns a
    non-negative integer, and that integer is 0 exactly when every code unit
    of the string is NUL (the empty string included). *)
Theorem stringToBigInt_sign_and_zero `{HostNumberToString}
  (s : js_string) (encoder : option TextEncoder) :
  js_string_ok s ->
  exists c,
    stringToBigInt (VString s) encoder = Normal c
    /\ 0 <= toBigInt c
    /\ isNegative c = false
    /\ (isZero c = true <-> Forall (eq 0) s).
Proof.
  intros Hok. eexists. split; [apply stringToBigInt_value; exact Hok|].
  pose proof (TextEncoder_encode_bytes new_TextEncoder s Hok) as Hbytes.
  unfold TextEncoder_encode in Hbytes.
  pose proof (big_endian_256_range _ Hbytes) as Hr.
  unfold toBigInt, isNegative, isZero, of_bigint; cbn [value].
  split; [lia|]. split; [apply Z.ltb_ge; lia|].
  rewrite Z.eqb_eq, big_endian_256_zero by exact Hbytes.
  apply utf8_encode_zero.
Qed.

Lemma stringToBigInt_sign_and_zero_witness :
  js_string_ok [0; 0; 0]
  /\ exists c, stringToBigInt (VString [0; 0; 0]) None = Normal c
               /\ (isZero c = true <-> Forall (eq 0) [0; 0; 0]).
Proof.
  assert (Hok : js_string_ok [0; 0; 0])
    by (repeat constructor; unfold code_unit_ok; lia).
  split; [exact Hok|].
  destruct (stringToBigInt_sign_and_zero [0; 0; 0] None Hok)
    as [c [Hc [_ [_ Hz]]]].
  exists c. split; [exact Hc | exact Hz].
Defined.

(** *** Concatenation *)

Lemma joins_surrogates_tail (a b : Z) (l s2 : js_string) :
  joins_surrogates (a :: b :: l) s2 = false ->
  joins_surrogates (b :: l) s2 = false /\ joins_surrogates l s2 = false.
Proof.
  unfold joins_surrogates. intros H.
  change (last (a :: b :: l) 0) with (last (b :: l) 0) in H.
  split; [exact H|].
  destruct l as [|c l]; [reflexivity|].
  change (last (b :: c :: l) 0) with (last (c :: l) 0) in H. exact H.
Qed.

Lemma utf8_encode_app (s1 s2 : js_string) :
  joins_surrogates s1 s2 = false ->
  utf8_encode (s1 ++ s2) = utf8_encode s1 ++ utf8_encode s2.
Proof.
  induction s1 as [| a | a b l IHl IHbl] using list_pair_induction; intros Hj.
  - reflexivity.
  - cbn [app]. unfold joins_surrogates in Hj. cbn [last] in Hj.
    destruct (is_lead_surrogate a) eqn:Elead.
    + cbn [andb] in Hj.
      rewrite (utf8_encode_cons_lone_lead a s2) by assumption.
      rewrite (utf8_encode_cons_lone_lead a []) by (exact Elead || reflexivity).
      rewrite <- app_assoc. reflexivity.
    + rewrite (utf8_encode_cons_plain a s2), (utf8_encode_cons_plain a [])
        by exact Elead.
      rewrite <- app_assoc. reflexivity.
  - destruct (joins_surrogates_tail a b l s2 Hj) as [Hbl Hl].
    change ((a :: b :: l) ++ s2) with (a :: b :: (l ++ s2)).
    destruct (is_lead_surrogate a) eqn:Elead.
    + destruct (is_trail_surrogate b) eqn:Etrail.
      * rewrite (utf8_encode_cons_pair a b (l ++ s2)),
          (utf8_encode_cons_pair a b l) by assumption.
        rewrite (IHl Hl), app_assoc. reflexivity.
      * rewrite (utf8_encode_cons_lone_lead a (b :: (l ++ s2))),
          (utf8_encode_cons_lone_lead a (b :: l)) by assumption.
        change (b :: (l ++ s2)) with ((b :: l) ++ s2).
        rewrite (IHbl Hbl), app_assoc. reflexivity.
    + rewrite (utf8_encode_cons_plain a (b :: (l ++ s2))),
        (utf8_encode_cons_plain a (b :: l)) by exact Elead.
      change (b :: (l ++ s2)) with ((b :: l) ++ s2).
      rewrite (IHbl Hbl), app_assoc. reflexivity.
Qed.

Lemma js_string_ok_app (s1 s2 : js_string) :
  js_string_ok s1 -> js_string_ok s2 -> js_string_ok (s1 ++ s2).
Proof. unfold js_string_ok. intros H1 H2. apply Forall_app. split; assumption. Qed.

(** X13. When joining s1 and s2 does not pair a lead surrogate ending s1
    with a trail surrogate starting s2, the integer of s1 + s2 is the integer
    of s1 shifted left by the UTF-8 bytes of s2, plus the integer of s2. *)
Theorem stringToBigInt_of_concatenation `{HostNumberToString}
  (s1 s2 : js_string) (encoder : option TextEncoder) :
  js_string_ok s1 -> js_string_ok s2 ->
  joins_surrogates s1 s2 = false ->
  exists v1 v2,
    seed_value s1 encoder = Normal v1
    /\ seed_value s2 encoder = Normal v2
    /\ seed_value (s1 ++ s2) encoder
       = Normal (v1 * 256 ^ Z.of_nat (length (utf8_encode s2)) + v2).
Proof.
  intros Hok1 Hok2 Hj. unfold seed_value.
  rewrite !stringToBigInt_value by (try apply js_string_ok_app; assumption).
  cbn [bind toBigInt value of_bigint].
  eexists. eexists. split; [reflexivity|]. split; [reflexivity|].
  rewrite (utf8_encode_app s1 s2 Hj), big_endian_256_app. reflexivity.
Qed.

Lemma stringToBigInt_of_concatenation_witness :
  exists v1 v2,
    seed_value (lit "A") None = Normal v1
    /\ seed_value [233; 55357; 56960] None = Normal v2
    /\ seed_value (lit "A" ++ [233; 55357; 56960]) None
       = Normal (v1 * 256 ^ 6 + v2).
Proof.
  assert (Hok1 : js_string_ok (lit "A"))
    by (repeat constructor; unfold code_unit_ok; cbn; lia).
  assert (Hok2 : js_string_ok [233; 55357; 56960])
    by (repeat constructor; unfold code_unit_ok; lia).
  exact (stringToBigInt_of_concatenation
           (lit "A") [233; 55357; 56960] None Hok1 Hok2 eq_refl).
Defined.

(** *** What the fixed-width views keep of a seed *)

Lemma big_endian_256_mod (bytes : list Z) (k : nat) :
  Forall byte_ok bytes ->
  big_endian_256 bytes mod 256 ^ Z.of_nat k = big_endian_256 (last_bytes k bytes).
Proof.
  intros Hall. unfold last_bytes.
  set (n := (length bytes - k)%nat).
  assert (Hsplit : bytes = firstn n bytes ++ skipn n bytes)
    by (symmetry; apply firstn_skipn).
  assert (Hlast : Forall byte_ok (skipn n bytes)).
  { rewrite Hsplit in Hall. apply Forall_app in Hall. apply Hall. }
  pose proof (big_endian_256_range _ Hlast) as Hr.
  assert (Hlen : length (skipn n bytes) = (length bytes - n)%nat)
    by apply length_skipn.
  assert (Hpk : 0 < 256 ^ Z.of_nat k) by (apply Z.pow_pos_nonneg; lia).
  rewrite Hsplit at 1. rewrite big_endian_256_app.
  destruct (Nat.le_gt_cases (length bytes) k) as [Hshort|Hlong].
  - assert (Hn : n = 0%nat) by (unfold n; lia).
    rewrite Hn in *. cbn [firstn skipn] in *.
    change (big_endian_256 []) with 0. rewrite Z.mul_0_l, Z.add_0_l.
    apply Z.mod_small.
    assert (256 ^ Z.of_nat (length bytes) <= 256 ^ Z.of_nat k)
      by (apply Z.pow_le_mono_r; lia).
    lia.
  - assert (Hk : length (skipn n bytes) = k) by (unfold n in *; lia).
    rewrite Hk in *. rewrite Z.add_comm, Z.mod_add by lia.
    apply Z.mod_small. exact Hr.
Qed.

(** X14. The unsigned fixed-width views of stringToBigInt(s) read only the
    last UTF-8 bytes of s: toUint8 the last byte, toUint16 the last two,
    toUint32 the last four and toBigUint64 the last eight, big-endian. *)
Theorem seed_views_read_trailing_bytes `{HostNumberToString}
  (s : js_string) (encoder : option TextEncoder) :
  js_string_ok s ->
  exists c,
    stringToBigInt (VString s) encoder = Normal c
    /\ toUint8 c = NumInt (big_endian_256 (last_bytes 1 (utf8_encode s)))
    /\ toUint16 c = NumInt (big_endian_256 (last_bytes 2 (utf8_encode s)))
    /\ toUint32 c = NumInt (big_endian_256 (last_bytes 4 (utf8_encode s)))
    /\ toBigUint64 c = big_endian_256 (last_bytes 8 (utf8_encode s)).
Proof.
  intros Hok. eexists. split; [apply stringToBigInt_value; exact Hok|].
  pose proof (TextEncoder_encode_bytes new_TextEncoder s Hok) as Hbytes.
  unfold TextEncoder_encode in Hbytes.
  unfold toUint8, toUint16, toUint32, toBigUint64, of_bigint; cbn [value].
  rewrite !Number_of_asUintN by lia. unfold BigInt_asUintN.
  change (2 ^ 8) with (256 ^ Z.of_nat 1). change (2 ^ 16) with (256 ^ Z.of_nat 2).
  change (2 ^ 32) with (256 ^ Z.of_nat 4). change (2 ^ 64) with (256 ^ Z.of_nat 8).
  rewrite !big_endian_256_mod by exact Hbytes.
  repeat split.
Qed.

Lemma seed_views_read_trailing_bytes_witness :
  exists c,
    stringToBigInt (VString (lit "hello")) None = Normal c
    /\ toUint8 c = NumInt 111
    /\ toUint16 c = NumInt (108 * 256 + 111).
Proof.
  assert (Hok : js_string_ok (lit "hello"))
    by (repeat constructor; unfold code_unit_ok; cbn; lia).
  destruct (seed_views_read_trailing_bytes (lit "hello") None Hok)
    as [c [Hc [H8 [H16 _]]]].
  exists c. split; [exact Hc|]. split; [exact H8 | exact H16].
Defined.

(** *** Unpaired surrogates *)

(** X15. An unpaired surrogate at the head of a string is encoded as U+FFFD:
    a trail surrogate always, a lead surrogate when no trail surrogate
    follows it. The string then collides with the one that has U+FFFD in
    its place. *)
Theorem unpaired_surrogate_reads_as_replacement `{HostNumberToString}
  (u : Z) (rest : js_string) (encoder : option TextEncoder) :
  (is_trail_surrogate u = true ->
   seed_value (u :: rest) encoder = seed_value (65533 :: rest) encoder)
  /\ (is_lead_surrogate u = true -> is_trail_surrogate (hd 0 rest) = false ->
      seed_value (u :: rest) encoder = seed_value (65533 :: rest) encoder).
Proof.
  unfold seed_value. rewrite !stringToBigInt_nonempty by discriminate.
  split.
  - intros Htrail.
    assert (Hlead : is_lead_surrogate u = false).
    { unfold is_trail_surrogate in Htrail. apply andb_prop in Htrail.
      unfold is_lead_surrogate. destruct (Z.leb_spec u 56319); [lia|].
      apply andb_false_r. }
    rewrite (utf8_encode_cons_plain u) by exact Hlead.
    rewrite (utf8_encode_cons_plain 65533) by reflexivity.
    rewrite Htrail. reflexivity.
  - intros Hlead Hnext.
    rewrite (utf8_encode_cons_lone_lead u) by assumption.
    rewrite (utf8_encode_cons_plain 65533) by reflexivity. reflexivity.
Qed.

Lemma unpaired_surrogate_reads_as_replacement_witness :
  seed_value [56832; 65] None = seed_value [65533; 65] None
  /\ seed_value [55357; 65] None = seed_value [65533; 65] None.
Proof.
  destruct (unpaired_surrogate_reads_as_replacement 56832 [65] None) as [Htrail _].
  destruct (unpaired_surrogate_reads_as_replacement 55357 [65] None) as [_ Hlead].
  split; [apply Htrail; reflexivity | apply Hlead; reflexivity].
Defined.

(** *** Size of the result, and ASCII text *)

Lemma utf8_encode_ascii (s : js_string) :
  Forall ascii_unit s -> utf8_encode s = s.
Proof.
  intros Hall. induction Hall as [|u s Hu _ IH]; [reflexivity|].
  unfold ascii_unit in Hu.
  assert (Hlead : is_lead_surrogate u = false).
  { unfold is_lead_surrogate. destruct (Z.leb_spec 55296 u); [lia | reflexivity]. }
  assert (Htrail : is_trail_surrogate u = false).
  { unfold is_trail_surrogate. destruct (Z.leb_spec 56320 u); [lia | reflexivity]. }
  rewrite utf8_encode_cons_plain, Htrail, IH by exact Hlead.
  unfold utf8_encode_scalar. destruct (Z.leb_spec u 127); [reflexivity | lia].
Qed.

Lemma utf8_encode_scalar_length (cp : Z) :
  (1 <= length (utf8_encode_scalar cp) <= 4)%nat
  /\ (cp <= 65535 -> (length (utf8_encode_scalar cp) <= 3)%nat)
  /\ (65535 < cp -> length (utf8_encode_scalar cp) = 4%nat).
Proof.
  unfold utf8_encode_scalar.
  destruct (Z.leb_spec cp 127); [cbn; lia|].
  destruct (Z.leb_spec cp 2047); [cbn; lia|].
  destruct (Z.leb_spec cp 65535); cbn; lia.
Qed.

Lemma utf8_encode_length (s : js_string) :
  js_string_ok s ->
  (length s <= length (utf8_encode s) <= 3 * length s)%nat.
Proof.
  unfold js_string_ok.
  induction s as [| a | a b l IHl IHbl] using list_pair_induction; intros Hs.
  - cbn. lia.
  - inversion Hs as [|? ? Ha _]; subst. unfold code_unit_ok in Ha.
    destruct (is_lead_surrogate a) eqn:Elead.
    + rewrite utf8_encode_cons_lone_lead by (exact Elead || reflexivity).
      cbn. lia.
    + rewrite utf8_encode_cons_plain by exact Elead.
      rewrite length_app.
      destruct (utf8_encode_scalar_length
                  (if is_trail_surrogate a then 65533 else a)) as [H1 [H3 _]].
      assert ((if is_trail_surrogate a then 65533 else a) <= 65535)
        by (destruct (is_trail_surrogate a); lia).
      specialize (H3 ltac:(assumption)). cbn [length utf8_encode flat_map
        to_scalar_values]. lia.
  - inversion Hs as [|? ? Ha Hbl]; subst.
    inversion Hbl as [|? ? Hb Hl]; subst.
    unfold code_unit_ok in Ha, Hb.
    specialize (IHl Hl). specialize (IHbl Hbl). cbn [length] in *.
    destruct (is_lead_surrogate a) eqn:Elead.
    + destruct (is_trail_surrogate b) eqn:Etrail.
      * rewrite utf8_encode_cons_pair by assumption. rewrite length_app.
        destruct (utf8_encode_scalar_length
                    (65536 + (a - 55296) * 1024 + (b - 56320))) as [_ [_ H4]].
        unfold is_lead_surrogate in Elead. apply andb_prop in Elead.
        unfold is_trail_surrogate in Etrail. apply andb_prop in Etrail.
        rewrite H4 by lia. lia.
      * rewrite utf8_encode_cons_lone_lead by assumption. rewrite length_app.
        change (length (utf8_encode_scalar 65533)) with 3%nat. lia.
    + rewrite utf8_encode_cons_plain by exact Elead. rewrite length_app.
      destruct (utf8_encode_scalar_length
                  (if is_trail_surrogate a then 65533 else a)) as [H1 [H3 _]].
      assert ((if is_trail_surrogate a then 65533 else a) <= 65535)
        by (destruct (is_trail_surrogate a); lia).
      specialize (H3 ltac:(assumption)). lia.
Qed.

(** X16. For a string of n code units stringToBigInt encodes between n and
    3n bytes, so its integer is below 256^(3n); for ASCII text the bytes are
    the character codes themselves, the integer is their big-endian base-256
    reading and it is below 256^n. *)
Theorem stringToBigInt_size `{HostNumberToString}
  (s : js_string) (encoder : option TextEncoder) :
  js_string_ok s ->
  exists c,
    stringToBigInt (VString s) encoder = Normal c
    /\ (length s <= length (utf8_encode s) <= 3 * length s)%nat
    /\ toBigInt c < 256 ^ Z.of_nat (length (utf8_encode s))
    /\ toBigInt c < 256 ^ (3 * Z.of_nat (length s))
    /\ (Forall ascii_unit s ->
        utf8_encode s = s /\ toBigInt c = big_endian_256 s
        /\ toBigInt c < 256 ^ Z.of_nat (length s)).
Proof.
  intros Hok. eexists. split; [apply stringToBigInt_value; exact Hok|].
  pose proof (TextEncoder_encode_bytes new_TextEncoder s Hok) as Hbytes.
  unfold TextEncoder_encode in Hbytes.
  pose proof (big_endian_256_range _ Hbytes) as Hr.
  pose proof (utf8_encode_length s Hok) as Hlen.
  unfold toBigInt, of_bigint; cbn [value].
  split; [exact Hlen|]. split; [lia|]. split.
  - assert (256 ^ Z.of_nat (length (utf8_encode s))
            <= 256 ^ (3 * Z.of_nat (length s)))
      by (apply Z.pow_le_mono_r; lia).
    lia.
  - intros Hascii. rewrite (utf8_encode_ascii s Hascii) in *.
    split; [reflexivity|]. split; [reflexivity | lia].
Qed.

Lemma stringToBigInt_size_witness :
  exists c,
    stringToBigInt (VString (lit "hello")) None = Normal c
    /\ toBigInt c = big_endian_256 (lit "hello")
    /\ toBigInt c < 256 ^ 5.
Proof.
  assert (Hok : js_string_ok (lit "hello"))
    by (repeat constructor; unfold code_unit_ok; cbn; lia).
  assert (Hascii : Forall ascii_unit (lit "hello"))
    by (repeat constructor; unfold ascii_unit; cbn; lia).
  destruct (stringToBigInt_size (lit "hello") None Hok)
    as [c [Hc [_ [_ [_ Hasc]]]]].
  destruct (Hasc Hascii) as [_ [Hv Hb]].
  exists c. split; [exact Hc|]. split; [exact Hv | exact Hb].
Defined.

(** *** When two strings give the same integer *)

Lemma all_zero_is_repeat (l : list Z) :
  Forall (eq 0) l -> l = repeat 0 (length l).
Proof.
  intros Hall. induction Hall as [|b l Hb _ IH]; [reflexivity|].
  cbn [length repeat]. subst b. f_equal. exact IH.
Qed.

(** Two byte sequences with the same big-endian value differ by leading
    zero bytes only. *)
Lemma big_endian_256_same_value (l1 : list Z) :
  Forall byte_ok l1 ->
  forall l2, Forall byte_ok l2 ->
    big_endian_256 l1 = big_endian_256 l2 ->
    (length l1 <= length l2)%nat ->
    l2 = repeat 0 (length l2 - length l1) ++ l1.
Proof.
  induction l1 as [|b1 l1 IH] using rev_ind; intros Hok1 l2 Hok2 Hval Hlen.
  - rewrite app_nil_r, Nat.sub_0_r. apply all_zero_is_repeat.
    apply big_endian_256_zero; [exact Hok2 | symmetry; exact Hval].
  - apply Forall_app in Hok1. destruct Hok1 as [Hok1 Hb1].
    inversion Hb1 as [|? ? Hb1' _]; subst.
    destruct (exists_last (l := l2)) as [l2' [b2 ->]].
    { intros ->. rewrite length_app in Hlen. cbn in Hlen. lia. }
    apply Forall_app in Hok2. destruct Hok2 as [Hok2 Hb2].
    inversion Hb2 as [|? ? Hb2' _]; subst.
    rewrite !big_endian_256_app in Hval.
    change (big_endian_256 [b1]) with (0 * 256 + b1) in Hval.
    change (big_endian_256 [b2]) with (0 * 256 + b2) in Hval.
    change (256 ^ Z.of_nat (length [b1])) with 256 in Hval.
    change (256 ^ Z.of_nat (length [b2])) with 256 in Hval.
    unfold byte_ok in Hb1', Hb2'.
    assert (b1 = b2) by lia. subst b2.
    assert (Hval' : big_endian_256 l1 = big_endian_256 l2') by lia.
    rewrite !length_app in *. cbn [length] in *.
    rewrite (IH Hok1 l2' Hok2 Hval' ltac:(lia)) at 1.
    rewrite <- app_assoc. f_equal. f_equal. lia.
Qed.

Lemma all_low_bit_patterns :
  forallb (fun n => Z.lor 128 (Z.of_nat n) =? 128 + Z.of_nat n) (seq 0 64) = true.
Proof. vm_compute. reflexivity. Qed.

Lemma lor_128_low (v : Z) : 0 <= v < 64 -> Z.lor 128 v = 128 + v.
Proof.
  intros Hv. pose proof all_low_bit_patterns as Hall.
  rewrite forallb_forall in Hall.
  specialize (Hall (Z.to_nat v) ltac:(apply in_seq; lia)).
  rewrite Z2Nat.id in Hall by lia. apply Z.eqb_eq. exact Hall.
Qed.

Lemma continuation_byte_arith (x : Z) :
  Z.lor 128 (Z.land x 63) = 128 + x mod 64.
Proof.
  change 63 with (Z.ones 6). rewrite Z.land_ones by lia.
  apply lor_128_low. apply Z.mod_pos_bound. lia.
Qed.

Lemma utf8_encode_scalar_arith (cp : Z) :
  0 <= cp -> utf8_encode_scalar cp = utf8_bytes_arith cp.
Proof.
  intros Hcp. unfold utf8_encode_scalar, utf8_bytes_arith.
  destruct (cp <=? 127); [reflexivity|].
  destruct (cp <=? 2047); [|destruct (cp <=? 65535)];
    cbn [continuation_bytes seq rev app map];
    change (6 * Z.of_nat 0) with 0; change (6 * Z.of_nat 1) with 6;
    change (6 * Z.of_nat 2) with 12; change (6 * Z.of_nat 3) with 18;
    rewrite !continuation_byte_arith, Z.shiftr_0_r;
    rewrite !Z.shiftr_div_pow2 by lia; reflexivity.
Qed.

Lemma cons_eq_parts {A} (a b : A) (l l' : list A) :
  a :: l = b :: l' -> a = b /\ l = l'.
Proof. intros E. inversion E. split; reflexivity. Qed.

Ltac split_cons_equalities :=
  repeat match goal with
         | E : _ :: _ = _ :: _ |- _ =>
             apply cons_eq_parts in E; destruct E as [? E]
         end.

(** The bytes of a scalar value determine it, whatever bytes follow. *)
Lemma utf8_bytes_prefix_free (c1 c2 : Z) (r1 r2 : list Z) :
  scalar_ok c1 -> scalar_ok c2 ->
  utf8_encode_scalar c1 ++ r1 = utf8_encode_scalar c2 ++ r2 ->
  c1 = c2 /\ r1 = r2.
Proof.
  unfold scalar_ok. intros H1 H2.
  rewrite !utf8_encode_scalar_arith by lia. unfold utf8_bytes_arith.
  assert (Hparts : forall c, 0 <= c ->
             c = 64 * (c / 64) + c mod 64
             /\ c / 64 = 64 * (c / 4096) + (c / 64) mod 64
             /\ c / 4096 = 64 * (c / 262144) + (c / 4096) mod 64
             /\ 0 <= c mod 64 < 64 /\ 0 <= (c / 64) mod 64 < 64
             /\ 0 <= (c / 4096) mod 64 < 64).
  { intros c Hc.
    pose proof (Z.div_mod c 64 ltac:(lia)).
    pose proof (Z.div_mod (c / 64) 64 ltac:(lia)) as Hd2.
    pose proof (Z.div_mod (c / 4096) 64 ltac:(lia)) as Hd3.
    rewrite (Z.div_div c 64 64) in Hd2 by lia.
    rewrite (Z.div_div c 4096 64) in Hd3 by lia.
    change (64 * 64) with 4096 in Hd2. change (4096 * 64) with 262144 in Hd3.
    pose proof (Z.mod_pos_bound c 64 ltac:(lia)).
    pose proof (Z.mod_pos_bound (c / 64) 64 ltac:(lia)).
    pose proof (Z.mod_pos_bound (c / 4096) 64 ltac:(lia)).
    repeat split; lia. }
  destruct (Hparts c1 ltac:(lia)) as [Ha1 [Hb1 [Hc1 [Hr1 [Hs1 Ht1]]]]].
  destruct (Hparts c2 ltac:(lia)) as [Ha2 [Hb2 [Hc2 [Hr2 [Hs2 Ht2]]]]].
  assert (Hq1 : 0 <= c1 / 262144) by (apply Z.div_pos; lia).
  assert (Hq2 : 0 <= c2 / 262144) by (apply Z.div_pos; lia).
  destruct (Z.leb_spec c1 127); [|destruct (Z.leb_spec c1 2047);
                                   [|destruct (Z.leb_spec c1 65535)]];
    (destruct (Z.leb_spec c2 127); [|destruct (Z.leb_spec c2 2047);
                                      [|destruct (Z.leb_spec c2 65535)]]);
    cbn [app]; intros E; split_cons_equalities; split; try lia;
    try assumption.
Qed.

Lemma utf8_of_scalars_injective (l1 : list Z) :
  Forall scalar_ok l1 ->
  forall l2, Forall scalar_ok l2 ->
    flat_map utf8_encode_scalar l1 = flat_map utf8_encode_scalar l2 -> l1 = l2.
Proof.
  intros Hok1. induction Hok1 as [|c1 l1 Hc1 _ IH]; intros l2 Hok2 E.
  - destruct l2 as [|c2 l2]; [reflexivity|]. cbn [flat_map] in E.
    symmetry in E. apply app_eq_nil in E. destruct E as [E _].
    exfalso. exact (utf8_encode_scalar_nonempty c2 E).
  - destruct l2 as [|c2 l2].
    + cbn [flat_map] in E. apply app_eq_nil in E. destruct E as [E _].
      exfalso. exact (utf8_encode_scalar_nonempty c1 E).
    + inversion Hok2 as [|? ? Hc2 Hok2']; subst. cbn [flat_map] in E.
      destruct (utf8_bytes_prefix_free c1 c2 _ _ Hc1 Hc2 E) as [-> Erest].
      f_equal. apply IH; assumption.
Qed.

(** A well-formed string is the UTF-16 encoding of its scalar values. *)
Lemma well_formed_from_scalars (s : js_string) :
  js_string_ok s -> isWellFormed s = true ->
  flat_map UTF16EncodeCodePoint (to_scalar_values s) = s.
Proof.
  unfold js_string_ok.
  induction s as [| a | a b l IHl IHbl] using list_pair_induction;
    intros Hs Hwf.
  - reflexivity.
  - inversion Hs as [|? ? Ha _]; subst. unfold code_unit_ok in Ha.
    cbn [isWellFormed to_scalar_values] in *.
    destruct (is_lead_surrogate a); [discriminate Hwf|].
    destruct (is_trail_surrogate a); [discriminate Hwf|].
    cbn [flat_map app]. unfold UTF16EncodeCodePoint.
    destruct (Z.leb_spec a 65535); [reflexivity | lia].
  - inversion Hs as [|? ? Ha Hbl]; subst.
    inversion Hbl as [|? ? Hb Hl]; subst.
    unfold code_unit_ok in Ha, Hb.
    change (isWellFormed (a :: b :: l))
      with (if is_lead_surrogate a
            then is_trail_surrogate b && isWellFormed l
            else negb (is_trail_surrogate a) && isWellFormed (b :: l)) in Hwf.
    change (to_scalar_values (a :: b :: l))
      with (if is_lead_surrogate a
            then if is_trail_surrogate b
                 then (65536 + (a - 55296) * 1024 + (b - 56320)) :: to_scalar_values l
                 else 65533 :: to_scalar_values (b :: l)
            else if is_trail_surrogate a
                 then 65533 :: to_scalar_values (b :: l)
                 else a :: to_scalar_values (b :: l)).
    destruct (is_lead_surrogate a) eqn:Elead.
    + apply andb_prop in Hwf. destruct Hwf as [Etrail Hwf].
      rewrite Etrail. cbn [flat_map]. rewrite (IHl Hl Hwf).
      unfold is_lead_surrogate in Elead. apply andb_prop in Elead.
      unfold is_trail_surrogate in Etrail. apply andb_prop in Etrail.
      unfold UTF16EncodeCodePoint.
      destruct (Z.leb_spec (65536 + (a - 55296) * 1024 + (b - 56320)) 65535);
        [lia|].
      replace (65536 + (a - 55296) * 1024 + (b - 56320) - 65536)
        with ((b - 56320) + (a - 55296) * 1024) by lia.
      rewrite Z.div_add, Z.mod_add by lia.
      rewrite Z.div_small, Z.mod_small by lia.
      cbn [app]. f_equal; [lia|]. f_equal. lia.
    + apply andb_prop in Hwf. destruct Hwf as [Etrail Hwf].
      apply negb_true_iff in Etrail. rewrite Etrail.
      cbn [flat_map]. rewrite (IHbl Hbl Hwf). unfold UTF16EncodeCodePoint.
      destruct (Z.leb_spec a 65535); [reflexivity | lia].
Qed.

Lemma utf8_encode_injective (s1 s2 : js_string) :
  js_string_ok s1 -> js_string_ok s2 ->
  isWellFormed s1 = true -> isWellFormed s2 = true ->
  utf8_encode s1 = utf8_encode s2 -> s1 = s2.
Proof.
  intros Hok1 Hok2 Hwf1 Hwf2 E. unfold utf8_encode in E.
  apply utf8_of_scalars_injective in E;
    try (apply to_scalar_values_ok; assumption).
  rewrite <- (well_formed_from_scalars s1 Hok1 Hwf1).
  rewrite <- (well_formed_from_scalars s2 Hok2 Hwf2).
  rewrite E. reflexivity.
Qed.

Lemma utf8_encode_head_zero (s : js_string) :
  hd 1 (utf8_encode s) = 0 -> hd 1 s = 0.
Proof.
  destruct s as [|u rest]; [intros E; exact E|]. cbn [hd].
  assert (Hnz : forall cp r, cp <> 0 -> hd 1 (utf8_encode_scalar cp ++ r) <> 0).
  { intros cp r Hcp E. unfold utf8_encode_scalar in E.
    destruct (Z.leb_spec cp 127); [cbn [app hd] in E; contradiction|].
    assert (Hshift : forall k, 0 <= Z.shiftr cp k)
      by (intros k; apply Z.shiftr_nonneg; lia).
    destruct (cp <=? 2047); [|destruct (cp <=? 65535)]; cbn [app hd] in E;
      match type of E with Z.shiftr cp ?k + _ = 0 =>
        pose proof (Hshift k) end; lia. }
  destruct (is_lead_surrogate u) eqn:Elead.
  - assert (Hu : u <> 0).
    { unfold is_lead_surrogate in Elead. apply andb_prop in Elead. lia. }
    intros E. exfalso. revert E. unfold utf8_encode. cbn [to_scalar_values].
    rewrite Elead.
    destruct rest as [|t rest']; [cbn; discriminate|].
    destruct (is_trail_surrogate t) eqn:Etrail; cbn [flat_map].
    + apply Hnz. unfold is_lead_surrogate in Elead. apply andb_prop in Elead.
      unfold is_trail_surrogate in Etrail. apply andb_prop in Etrail. lia.
    + apply Hnz. discriminate.
  - rewrite utf8_encode_cons_plain by exact Elead.
    destruct (is_trail_surrogate u) eqn:Etrail.
    + intros E. exfalso. revert E. apply Hnz. discriminate.
    + intros E. destruct (Z.eq_dec u 0) as [Hu|Hu]; [exact Hu|].
      exfalso. revert E. apply Hnz. exact Hu.
Qed.

(** X17. Two well-formed strings of 16-bit code units, neither starting with
    NUL, that stringToBigInt maps to the same integer are the same string:
    apart from leading NULs and unpaired surrogates there are no
    collisions. *)
Theorem stringToBigInt_injective `{HostNumberToString}
  (s1 s2 : js_string) (encoder : option TextEncoder) :
  js_string_ok s1 -> js_string_ok s2 ->
  isWellFormed s1 = true -> isWellFormed s2 = true ->
  hd 1 s1 <> 0 -> hd 1 s2 <> 0 ->
  seed_value s1 encoder = seed_value s2 encoder ->
  s1 = s2.
Proof.
  intros Hok1 Hok2 Hwf1 Hwf2 Hnul1 Hnul2 Hval.
  unfold seed_value in Hval.
  rewrite !stringToBigInt_value in Hval by assumption.
  cbn [bind toBigInt value of_bigint] in Hval.
  assert (Hbe : big_endian_256 (utf8_encode s1) = big_endian_256 (utf8_encode s2))
    by (inversion Hval; reflexivity).
  pose proof (TextEncoder_encode_bytes new_TextEncoder s1 Hok1) as Hb1.
  pose proof (TextEncoder_encode_bytes new_TextEncoder s2 Hok2) as Hb2.
  unfold TextEncoder_encode in Hb1, Hb2.
  assert (Hhead : forall s k l, hd 1 s <> 0 -> utf8_encode s = repeat 0 k ++ l ->
                                k = 0%nat).
  { intros s k l Hnul E. destruct k as [|k]; [reflexivity|].
    exfalso. apply Hnul, utf8_encode_head_zero. rewrite E. reflexivity. }
  apply utf8_encode_injective; try assumption.
  destruct (Nat.le_ge_cases (length (utf8_encode s1)) (length (utf8_encode s2)))
    as [Hle|Hge].
  - pose proof (big_endian_256_same_value _ Hb1 _ Hb2 Hbe Hle) as E.
    rewrite (Hhead s2 _ _ Hnul2 E) in E. symmetry. exact E.
  - pose proof (big_endian_256_same_value _ Hb2 _ Hb1 (eq_sym Hbe) Hge) as E.
    rewrite (Hhead s1 _ _ Hnul1 E) in E. exact E.
Qed.

Lemma stringToBigInt_injective_witness :
  js_string_ok [104; 233; 55357; 56960]
  /\ isWellFormed [104; 233; 55357; 56960] = true
  /\ hd 1 [104; 233; 55357; 56960] <> 0
  /\ seed_value [104; 233; 55357; 56960] None
     = seed_value (lit "h" ++ [233; 55357; 56960]) None
  /\ [104; 233; 55357; 56960] = lit "h" ++ [233; 55357; 56960].
Proof.
  assert (Hok : js_string_ok [104; 233; 55357; 56960])
    by (repeat constructor; unfold code_unit_ok; lia).
  assert (Hnul : hd 1 [104; 233; 55357; 56960] <> 0) by discriminate.
  assert (Hval : seed_value [104; 233; 55357; 56960] None
                 = seed_value (lit "h" ++ [233; 55357; 56960]) None)
    by reflexivity.
  split; [exact Hok|]. split; [reflexivity|]. split; [exact Hnul|].
  split; [exact Hval|].
  exact (stringToBigInt_injective _ _ None Hok Hok eq_refl eq_refl Hnul Hnul Hval).
Defined.

(** ** The shape of a rendering *)

Lemma digits_of_leading (radix : Z) (fuel : nat) (n : Z) :
  2 <= radix <= 36 -> 0 < n < 2 ^ Z.of_nat fuel ->
  exists d rest,
    digits_of fuel radix n [] = digit_char d :: rest /\ 0 < d < radix.
Proof.
  intros Hr. revert n. induction fuel as [|fuel IH]; intros n Hn.
  - change (2 ^ Z.of_nat 0) with 1 in Hn. lia.
  - cbn [digits_of].
    pose proof (Z.mod_pos_bound n radix ltac:(lia)) as Hm.
    pose proof (Z.div_mod n radix ltac:(lia)) as Hdm.
    destruct (Z.eqb_spec (n / radix) 0) as [Hq|Hq].
    + exists (n mod radix), []. split; [reflexivity|]. rewrite Hq in Hdm. lia.
    + rewrite digits_of_acc.
      destruct (IH (n / radix)) as [d [rest [E Hd]]].
      * rewrite Nat2Z.inj_succ, Z.pow_succ_r in Hn by lia.
        assert (0 <= n / radix) by (apply Z.div_pos; lia).
        split; [lia|]. apply Z.div_lt_upper_bound; [lia|]. nia.
      * exists d, (rest ++ [digit_char (n mod radix)]).
        rewrite E. split; [reflexivity | exact Hd].
Qed.

Lemma magnitude_digits_leading (radix n : Z) :
  2 <= radix <= 36 -> 0 < n ->
  exists d rest,
    magnitude_digits radix n = digit_char d :: rest /\ 0 < d < radix.
Proof.
  intros Hr Hn. unfold magnitude_digits. apply digits_of_leading; [exact Hr|].
  rewrite Nat2Z.inj_succ, Z2Nat.id by apply Z.log2_nonneg.
  split; [exact Hn | apply Z.log2_spec; exact Hn].
Qed.

Lemma digit_char_not_zero_or_minus (d : Z) :
  0 < d < 36 -> digit_char d <> 48 /\ digit_char d <> 45.
Proof. intros Hd. unfold digit_char. destruct (Z.ltb_spec d 10); lia. Qed.

(** X18. In every radix from 2 to 36 the rendering of toString is canonical:
    it starts with a minus sign exactly for a negative V, its first digit is
    0 only for V = 0 (the text is then the single digit 0), and two
    different values never have the same rendering. *)
Theorem toString_is_canonical (V W r : Z) :
  2 <= r <= 36 ->
  exists s,
    toString (of_bigint V) (Some (NumInt r)) = Normal s
    /\ (hd 0 s = 45 <-> V < 0)
    /\ (hd 0 s = 48 <-> V = 0)
    /\ (V = 0 -> s = [48])
    /\ (toString (of_bigint W) (Some (NumInt r)) = Normal s -> W = V).
Proof.
  intros Hr. exists (integer_toString V r).
  split; [apply toString_in_range; exact Hr|].
  assert (Hhead : forall n, 0 < n ->
             hd 0 (magnitude_digits r n) <> 48 /\ hd 0 (magnitude_digits r n) <> 45).
  { intros n Hn. destruct (magnitude_digits_leading r n Hr Hn) as [d [rest [E Hd]]].
    rewrite E. cbn [hd]. apply digit_char_not_zero_or_minus. lia. }
  assert (Hzero : magnitude_digits r 0 = [48]).
  { unfold magnitude_digits. cbn [Z.log2 Z.to_nat digits_of].
    rewrite Z.mod_0_l, Z.div_0_l by lia. reflexivity. }
  split; [|split; [|split]].
  - unfold integer_toString. destruct (Z.ltb_spec V 0) as [Hneg|Hpos].
    + cbn [hd]. split; [intros _; exact Hneg | reflexivity].
    + destruct (Z.eq_dec V 0) as [->|Hnz].
      * rewrite Hzero. cbn [hd]. split; [discriminate | lia].
      * destruct (Hhead V ltac:(lia)) as [_ H45]. split; [contradiction | lia].
  - unfold integer_toString. destruct (Z.ltb_spec V 0) as [Hneg|Hpos].
    + cbn [hd]. split; [discriminate | lia].
    + destruct (Z.eq_dec V 0) as [->|Hnz].
      * rewrite Hzero. split; reflexivity.
      * destruct (Hhead V ltac:(lia)) as [H48 _]. split; [contradiction | lia].
  - intros ->. unfold integer_toString. cbn [Z.ltb Z.compare]. exact Hzero.
  - rewrite (toString_in_range W r Hr). intros E.
    assert (E' : integer_toString W r = integer_toString V r)
      by (inversion E; reflexivity).
    pose proof (integer_toString_parse r Hr W) as HW.
    pose proof (integer_toString_parse r Hr V) as HV.
    rewrite E' in HW. rewrite HW in HV. inversion HV. reflexivity.
Qed.

Lemma toString_is_canonical_witness :
  2 <= 36 <= 36
  /\ exists s,
      toString (of_bigint (-1295)) (Some (NumInt 36)) = Normal s
      /\ (hd 0 s = 45 <-> -1295 < 0).
Proof.
  assert (Hr : 2 <= 36 <= 36) by lia.
  split; [exact Hr|].
  destruct (toString_is_canonical (-1295) 0 36 Hr) as [s [Hs [Hsign _]]].
  exists s. split; [exact Hs | exact Hsign].
Defined.
